(** * fixed_vector: a fixed-capacity sequence over [std::array<T, CAPACITY>]

    Shallow embedding of [src/fixed_vector.hpp].

    - [size_t] values are [Z] in the range [0, 2^64); every [++], [--] and
      subtraction of the source is written with its wrap-around ([wrap]).
    - The object is a record of its three data members.  [_buf] is a list
      whose length is the template parameter [CAPACITY].
    - Member functions are state-passing computations [M A] on the object.
      They end normally ([Ok]), by a C++ exception ([Throw]), or by
      undefined behaviour ([Fault i]): [std::array::operator[]] does no
      bounds check, so [_buf[i]] with [i >= CAPACITY] has no defined result.
    - The preprocessor switch [FIXED_VECTOR_NOEXCEPT] is the [build_mode]
      argument of the member functions whose text depends on it.
    - The element type's [==] and move constructor are parameters
      ([T_eq], [MoveConstructible]). *)

From stdpp Require Import base list strings.
From Stdlib Require Import ZArith Lia.

Open Scope Z_scope.

(** ** size_t arithmetic *)

Definition SIZE_MODULUS : Z := 2 ^ 64.
Definition SIZE_MAX : Z := SIZE_MODULUS - 1.

Definition wrap (z : Z) : Z := z mod SIZE_MODULUS.

(** ** Build modes, exceptions, outcomes *)

(** [Checked]: [FIXED_VECTOR_NOEXCEPT] is not defined (the default).
    [NoExcept]: it is defined. *)
Inductive build_mode : Type := Checked | NoExcept.

(** The three standard exception classes the header throws, with the
    [what()] string given to the constructor. *)
Inductive exception : Type :=
| length_error (what : string)
| out_of_range (what : string)
| runtime_error (what : string).

Inductive outcome (A : Type) : Type :=
| Ok (a : A)
| Throw (e : exception)
| Fault (i : Z).

Arguments Ok {A} a.
Arguments Throw {A} e.
Arguments Fault {A} i.

(** The error taxonomy of the specification, as the exceptions the header
    constructs for each. *)
Definition CapacityExceeded : exception :=
  length_error "Cannot push back: vector is at capacity".
Definition EmptyContainer : exception :=
  length_error "Cannot pop back: vector is empty".
Definition IndexOutOfRange : exception :=
  out_of_range "Index is out of range for current size".
Definition InvariantViolation : exception :=
  runtime_error "Current size is somehow larger than capacity: something is very wrong!".

(** ** The object *)

Record fixed_vector (T : Type) : Type := mk_fixed_vector {
  _capacity : Z;
  _current_size : Z;
  _buf : list T
}.

Arguments mk_fixed_vector {T} _ _ _.
Arguments _capacity {T} _.
Arguments _current_size {T} _.
Arguments _buf {T} _.

(** [std::array<T, CAPACITY>::operator[]]: defined only below [CAPACITY],
    which is the length of the list. *)
Definition in_array {T : Type} (b : list T) (i : Z) : bool :=
  (0 <=? i) && (i <? Z.of_nat (length b)).

Definition array_at {T : Type} (b : list T) (i : Z) : outcome T :=
  if in_array b i then
    match b !! Z.to_nat i with
    | Some x => Ok x
    | None => Fault i
    end
  else Fault i.

(** The element type's move constructor [T(T&&)]: [moved_from x] is the
    value it leaves in a source that held [x] (the result of the move is
    [x]).  For [int] and other trivially copyable types it leaves [x]. *)
Class MoveConstructible (T : Type) : Type := moved_from : T -> T.

Section Members.

Context {T : Type} `{!MoveConstructible T}.

(** The element type's [operator==], used by [std::equal]. *)
Variable T_eq : T -> T -> bool.

Local Abbreviation vec := (fixed_vector T).

(** ** The state-passing monad of member functions *)

Definition M (A : Type) : Type := vec -> outcome A * vec.

Definition ret {A : Type} (a : A) : M A := fun s => (Ok a, s).

Definition bind {A B : Type} (m : M A) (f : A -> M B) : M B :=
  fun s =>
    match m s with
    | (Ok a, s') => f a s'
    | (Throw e, s') => (Throw e, s')
    | (Fault i, s') => (Fault i, s')
    end.

Definition throw {A : Type} (e : exception) : M A := fun s => (Throw e, s).

Local Notation "x <- m ;; k" := (bind m (fun x => k))
  (at level 100, m at next level, right associativity).
Local Notation "m ;;; k" := (bind m (fun _ => k))
  (at level 100, right associativity).

(** [this->_current_size] and [this->_capacity] as rvalues. *)
Definition get_size : M Z := fun s => (Ok (_current_size s), s).
Definition get_capacity : M Z := fun s => (Ok (_capacity s), s).

(** [this->_current_size = n]. *)
Definition set_size (n : Z) : M unit :=
  fun s => (Ok tt, mk_fixed_vector (_capacity s) n (_buf s)).

(** [this->_buf[i]] read. *)
Definition buf_read (i : Z) : M T :=
  fun s => (array_at (_buf s) i, s).

(** [v._buf[i]] read, for another object [v]. *)
Definition other_buf_read (v : vec) (i : Z) : M T :=
  fun s => (array_at (_buf v) i, s).

(** [this->_buf.size()]. *)
Definition buf_size : M Z :=
  fun s => (Ok (Z.of_nat (length (_buf s))), s).

(** [this->_buf[i] = x]. *)
Definition buf_write (i : Z) (x : T) : M unit :=
  fun s =>
    if in_array (_buf s) i then
      (Ok tt, mk_fixed_vector (_capacity s) (_current_size s)
                (<[Z.to_nat i := x]> (_buf s)))
    else (Fault i, s).

(** [this->_buf[i]] as an lvalue handed to the caller: the reference is
    the slot index. *)
Definition buf_ref (i : Z) : M Z :=
  fun s => if in_array (_buf s) i then (Ok i, s) else (Fault i, s).

(** ** Loops

    The three counting loops of the header test their counter against
    [_current_size] (or [0]), and no loop body assigns [_current_size];
    so the number of iterations is fixed when the loop is entered. *)

(** [body i; body (i+1); ...], [count] times. *)
Fixpoint for_up (count : nat) (i : Z) (body : Z -> M unit) : M unit :=
  match count with
  | O => ret tt
  | S count' => body i ;;; for_up count' (i + 1) body
  end.

(** [for (size_t i = lo; i < hi; ++i) body(i)] *)
Definition for_lt (lo hi : Z) (body : Z -> M unit) : M unit :=
  for_up (Z.to_nat (hi - lo)) lo body.

(** [for (size_t i = lo; i <= hi; ++i) body(i)] *)
Definition for_le (lo hi : Z) (body : Z -> M unit) : M unit :=
  for_up (Z.to_nat (hi + 1 - lo)) lo body.

(** [for (size_t i = n; i > 0; --i) body(i)] *)
Fixpoint for_down (n : nat) (body : Z -> M unit) : M unit :=
  match n with
  | O => ret tt
  | S n' => body (Z.of_nat (S n')) ;;; for_down n' body
  end.

(** ** Private helpers *)

(** Lines 42-45. *)
Definition unsafe_right_shift_by_one : M unit :=
  n <- get_size ;;
  set_size (wrap (n + 1)) ;;;
  n' <- get_size ;;
  for_down (Z.to_nat n')
    (fun i => x <- buf_read (i - 1) ;; buf_write i x).

(** Lines 54-57. *)
Definition unsafe_left_shift_by_one : M unit :=
  n <- get_size ;;
  for_lt 1 n (fun i => x <- buf_read i ;; buf_write (i - 1) x) ;;;
  set_size (wrap (n - 1)).

(** ** Constructors *)

(** Default constructor: [_buf({})] value-initialises every slot; [dflt]
    is [T{}]. *)
Definition fixed_vector_default (CAPACITY : nat) (dflt : T) : vec :=
  mk_fixed_vector (Z.of_nat CAPACITY) 0 (replicate CAPACITY dflt).

(** From a full [std::array<T, CAPACITY>]. *)
Definition fixed_vector_of_array (a : list T) : vec :=
  mk_fixed_vector (Z.of_nat (length a)) (Z.of_nat (length a)) a.

(** From an initializer list: [std::copy] over value-initialised storage.
    A list longer than [CAPACITY] is copied past the end of the array. *)
Definition fixed_vector_of_init (CAPACITY : nat) (dflt : T)
    (init_list : list T) : outcome vec :=
  if (length init_list <=? CAPACITY)%nat then
    Ok (mk_fixed_vector (Z.of_nat CAPACITY) (Z.of_nat (length init_list))
          (init_list ++ replicate (CAPACITY - length init_list) dflt))
  else Fault (Z.of_nat CAPACITY).

(** ** Public member functions *)

Definition capacity (s : vec) : Z := _capacity s.
Definition size (s : vec) : Z := _current_size s.

(** Line 109. *)
Definition clear : M unit := set_size 0.

(** Lines 125-141. *)
Definition push_back (mode : build_mode) (val : T) : M unit :=
  n <- get_size ;;
  c <- get_capacity ;;
  if n =? c then
    match mode with
    | Checked => throw CapacityExceeded
    | NoExcept => ret tt
    end
  else
    buf_write n val ;;;
    set_size (wrap (n + 1)).

(** Lines 146-163. *)
Definition push_front (mode : build_mode) (val : T) : M unit :=
  n <- get_size ;;
  c <- get_capacity ;;
  if n =? c then
    match mode with
    | Checked => throw CapacityExceeded
    | NoExcept => ret tt
    end
  else
    unsafe_right_shift_by_one ;;;
    buf_write 0 val.

(** [std::move(this->_buf[i])] used to construct a result: the move
    constructor yields the slot's value and leaves the slot moved-from. *)
Definition buf_move (i : Z) : M T :=
  x <- buf_read i ;;
  buf_write i (moved_from x) ;;;
  ret x.

(** Lines 167-180. *)
Definition pop_back (mode : build_mode) : M T :=
  n <- get_size ;;
  if n =? 0 then
    match mode with
    | Checked => throw EmptyContainer
    | NoExcept => buf_read 0
    end
  else
    set_size (wrap (n - 1)) ;;;
    n' <- get_size ;;
    buf_move n'.

(** Lines 185-197.  The whole emptiness test sits inside
    [#ifndef FIXED_VECTOR_NOEXCEPT ... #endif]; there is no [#else]. *)
Definition pop_front (mode : build_mode) : M T :=
  match mode with
  | Checked =>
      n <- get_size ;;
      if n =? 0 then throw EmptyContainer else ret tt
  | NoExcept => ret tt
  end ;;;
  val <- buf_read 0 ;;
  unsafe_left_shift_by_one ;;;
  ret val.

(** Lines 203-205, the body of the loop of [reverse]:
    [temp = _buf[i]; _buf[i] = _buf[_current_size - 1 - i];
     _buf[_current_size - 1 - i] = temp;] *)
Definition reverse_step (i : Z) : M unit :=
  temp <- buf_read i ;;
  n <- get_size ;;
  x <- buf_read (wrap (wrap (n - 1) - i)) ;;
  buf_write i x ;;;
  n' <- get_size ;;
  buf_write (wrap (wrap (n' - 1) - i)) temp.

(** Lines 200-207: [for (size_t i = 0; i <= _current_size / 2; ++i)]. *)
Definition reverse : M unit :=
  n <- get_size ;;
  for_le 0 (n / 2) reverse_step.

(** Lines 210-245 and, with the same text, 248-283. *)
Definition operator_index (mode : build_mode) (pos : Z) : M Z :=
  n <- get_size ;;
  c <- get_capacity ;;
  if (n =? 0) || (wrap (n - 1) <? pos) then
    match mode with
    | Checked => throw IndexOutOfRange
    | NoExcept => buf_ref 0
    end
  else if c <? n then
    match mode with
    | Checked => throw InvariantViolation
    | NoExcept => buf_ref 0
    end
  else buf_ref pos.

(** Lines 286-290: copy assignment. *)
Definition operator_assign (v : vec) : M unit :=
  set_size (_current_size v) ;;;
  len <- buf_size ;;
  for_lt 0 len (fun i => x <- other_buf_read v i ;; buf_write i x).

(** [std::equal(first1, last1, first2)] over the two buffers, from slot
    [i], for [count] elements; stops at the first mismatch. *)
Fixpoint std_equal (count : nat) (i : Z) (b1 b2 : list T) : outcome bool :=
  match count with
  | O => Ok true
  | S count' =>
      match array_at b1 i with
      | Ok x =>
          match array_at b2 i with
          | Ok y => if T_eq x y then std_equal count' (i + 1) b1 b2 else Ok false
          | Throw e => Throw e
          | Fault j => Fault j
          end
      | Throw e => Throw e
      | Fault j => Fault j
      end
  end.

(** Lines 300-313 (both overloads have the same text). *)
Definition operator_eq (v : vec) : M bool :=
  n <- get_size ;;
  if n =? size v then
    fun s => (std_equal (Z.to_nat n) 0 (_buf s) (_buf v), s)
  else ret false.

End Members.

(** ** Well-formed objects and the logical sequence *)

Section Predicates.

Context {T : Type} `{!MoveConstructible T}.

(** What every constructor establishes and no member function changes:
    [_capacity] is [CAPACITY] and [_buf] has [CAPACITY] slots.  [CAPACITY]
    is positive (the [static_assert]) and below [SIZE_MAX]: the object
    holds the array and two more members, and its [sizeof] is a [size_t]. *)
Definition storage_ok (s : fixed_vector T) : Prop :=
  0 < _capacity s < SIZE_MODULUS - 1 /\ Z.of_nat (length (_buf s)) = _capacity s.

(** The size invariant of the data model. *)
Definition invariant (s : fixed_vector T) : Prop :=
  0 <= _current_size s <= _capacity s.

Definition wf (s : fixed_vector T) : Prop := storage_ok s /\ invariant s.

(** The elements at logical positions [0 .. size-1]. *)
Definition logical (s : fixed_vector T) : list T :=
  take (Z.to_nat (_current_size s)) (_buf s).

(** Two states of one object that agree on capacity, size and number of
    slots; [keeps_shape m] says that [m] only ever assigns to slots. *)
Definition same_shape (s s' : fixed_vector T) : Prop :=
  _capacity s' = _capacity s /\ _current_size s' = _current_size s /\
  length (_buf s') = length (_buf s).

Definition keeps_shape {A : Type} (m : fixed_vector T -> outcome A * fixed_vector T) : Prop :=
  forall s, same_shape s (snd (m s)).

(** Copy assignment is between objects of one type, so of one [CAPACITY]. *)
Definition assign_source_ok (s : fixed_vector T) (o_src : fixed_vector T) : Prop :=
  wf o_src /\ _capacity o_src = _capacity s.

(** Pairwise equality of two sequences under the element type's [==]. *)
Definition pairwise_equal (T_eq : T -> T -> bool) (l1 l2 : list T) : Prop :=
  Forall2 (fun x y => T_eq x y = true) l1 l2.

(** The public mutators and accessors as data, to run sequences of calls. *)
Inductive operation : Type :=
| OpPushBack (val : T)
| OpPushFront (val : T)
| OpPopBack
| OpPopFront
| OpClear
| OpReverse
| OpIndex (pos : Z)
| OpAssign (v : fixed_vector T).

Definition run_operation (mode : build_mode) (o : operation) :
    fixed_vector T -> outcome unit * fixed_vector T :=
  match o with
  | OpPushBack val => push_back mode val
  | OpPushFront val => push_front mode val
  | OpPopBack => bind (pop_back mode) (fun _ => ret tt)
  | OpPopFront => bind (pop_front mode) (fun _ => ret tt)
  | OpClear => clear
  | OpReverse => reverse
  | OpIndex pos => bind (operator_index mode pos) (fun _ => ret tt)
  | OpAssign v => operator_assign v
  end.

(** A sequence of calls, stopping at the first one that does not return. *)
Fixpoint run_operations (mode : build_mode) (os : list operation) :
    fixed_vector T -> outcome unit * fixed_vector T :=
  match os with
  | [] => ret tt
  | o :: os' => bind (run_operation mode o) (fun _ => run_operations mode os')
  end.

Definition is_push (o : operation) : bool :=
  match o with
  | OpPushBack _ | OpPushFront _ => true
  | _ => false
  end.

End Predicates.

(** ** Iterators, element assignment and the remaining constructors *)

(** Lines 317-370 ([iterator]) and, with the same text up to [const],
    374-427 ([const_iterator]): a wrapper of one pointer.  The pointer is
    kept as its offset from [_buf.data()].  The friends [operator+] and
    [operator-(difference_type, iterator)] use [+=] and [-=], which
    neither class declares; they are left out. *)
Record iterator : Type := mk_iterator { _ptr : Z }.

(** [operator++()]: [++_ptr; return *this;].  The pair is the value
    returned and the iterator after the call. *)
Definition iterator_pre_increment (it : iterator) : iterator * iterator :=
  (mk_iterator (_ptr it + 1), mk_iterator (_ptr it + 1)).

(** [operator++(int)]: [tmp = *this; ++_ptr; return tmp;]. *)
Definition iterator_post_increment (it : iterator) : iterator * iterator :=
  (it, mk_iterator (_ptr it + 1)).

(** [operator==] and [operator!=]. *)
Definition iterator_eq (it other : iterator) : bool := _ptr it =? _ptr other.
Definition iterator_ne (it other : iterator) : bool := negb (_ptr it =? _ptr other).

(** [operator-(lhs, rhs)]: [lhs._ptr - rhs._ptr]. *)
Definition iterator_distance (lhs rhs : iterator) : Z := _ptr lhs - _ptr rhs.

Section MoreMembers.

Context {T : Type} `{!MoveConstructible T}.

(** The dereference operator, [return *_ptr;]: a read through an iterator into the
    buffer of [s].  Only pointers to a slot may be dereferenced. *)
Definition iterator_deref (it : iterator) (s : fixed_vector T) : outcome T :=
  array_at (_buf s) (_ptr it).

(** [*it = x], through a mutable [iterator]. *)
Definition iterator_store (it : iterator) (x : T) :
    fixed_vector T -> outcome unit * fixed_vector T :=
  buf_write (_ptr it) x.

(** Lines 430-432 and 440-442, 450-452: [begin()], [cbegin()]. *)
Definition begin (s : fixed_vector T) : iterator := mk_iterator 0.

(** Lines 435-437 and 445-447, 455-457: [end()], [cend()]:
    [_buf.data() + _current_size], a pointer that exists up to one past
    the array. *)
Definition end_ (s : fixed_vector T) : outcome iterator :=
  if (0 <=? _current_size s) && (_current_size s <=? Z.of_nat (length (_buf s)))
  then Ok (mk_iterator (_current_size s))
  else Fault (_current_size s).

(** The loop [for (it = first; it != last; ++it) visit( *it );] over the
    buffer of [s], collecting what it visits; [None] when [fuel] passes
    do not reach [last]. *)
Fixpoint traverse (fuel : nat) (it last : iterator) (s : fixed_vector T) :
    option (outcome (list T)) :=
  match fuel with
  | O => None
  | S fuel' =>
      if iterator_ne it last then
        match iterator_deref it s with
        | Ok x =>
            match traverse fuel' (snd (iterator_pre_increment it)) last s with
            | Some (Ok l) => Some (Ok (x :: l))
            | other => other
            end
        | Throw e => Some (Throw e)
        | Fault i => Some (Fault i)
        end
      else Some (Ok [])
  end.

(** The statement [v[pos] = x;]: the reference [operator[]] returns,
    then a store through it. *)
Definition assign_at (mode : build_mode) (pos : Z) (x : T) :
    fixed_vector T -> outcome unit * fixed_vector T :=
  bind (operator_index mode pos) (fun r => buf_write r x).

(** The expression [v[pos]] as an rvalue. *)
Definition read_at (mode : build_mode) (pos : Z) :
    fixed_vector T -> outcome T * fixed_vector T :=
  bind (operator_index mode pos) (fun r => buf_read r).

(** Lines 69-73: the copy constructor copies the three members. *)
Definition fixed_vector_copy (v : fixed_vector T) : fixed_vector T :=
  mk_fixed_vector (_capacity v) (_current_size v) (_buf v).

(** Whether a call ended by an exception. *)
Definition is_throw {A : Type} (r : outcome A) : bool :=
  match r with Throw _ => true | _ => false end.

(** A member function that never ends by an exception. *)
Definition no_throw {A : Type} (m : fixed_vector T -> outcome A * fixed_vector T) : Prop :=
  forall s e s', m s <> (Throw e, s').

Definition is_pop (o : @operation T) : bool :=
  match o with
  | OpPopBack | OpPopFront => true
  | _ => false
  end.

(** The operations of a double-ended queue, and what each does to a
    plain list. *)
Definition is_deque_op (o : @operation T) : bool :=
  match o with
  | OpPushBack _ | OpPushFront _ | OpPopBack | OpPopFront | OpClear => true
  | _ => false
  end.

Definition list_step (l : list T) (o : @operation T) : list T :=
  match o with
  | OpPushBack val => l ++ [val]
  | OpPushFront val => val :: l
  | OpPopBack => take (length l - 1) l
  | OpPopFront => drop 1 l
  | OpClear => []
  | _ => l
  end.

End MoreMembers.

(** [int], the element type of the worked examples, is trivially
    copyable: a move leaves its source as it was. *)
#[global] Instance int_move_constructible : MoveConstructible Z := fun x => x.

(** An element type whose [==] is not reflexive, as [double] with its
    NaN, and an [==] on [int]-like values that is not symmetric. *)
Inductive number : Type := Finite (z : Z) | NaN.

Definition number_eq (a b : number) : bool :=
  match a, b with
  | Finite x, Finite y => x =? y
  | _, _ => false
  end.

Definition one_sided_eq (a b : Z) : bool := a <=? b.

(** * Proofs *)

Lemma wrap_small z : 0 <= z < SIZE_MODULUS -> wrap z = z.
Proof. intros H. unfold wrap. apply Z.mod_small. exact H. Qed.

Lemma wrap_minus_one : wrap (0 - 1) = SIZE_MAX.
Proof. reflexivity. Qed.

Lemma SIZE_MODULUS_pos : 0 < SIZE_MODULUS.
Proof. reflexivity. Qed.

Lemma SIZE_MAX_eq : SIZE_MAX = SIZE_MODULUS - 1.
Proof. reflexivity. Qed.

Global Opaque SIZE_MODULUS SIZE_MAX wrap.

Section ArrayFacts.

Context {T : Type} `{!MoveConstructible T}.
Implicit Types (b : list T) (s : fixed_vector T).

Lemma in_array_true b i :
  in_array b i = true <-> 0 <= i < Z.of_nat (length b).
Proof. unfold in_array. rewrite andb_true_iff, Z.leb_le, Z.ltb_lt. tauto. Qed.

Lemma in_array_false b i :
  in_array b i = false <-> ~ (0 <= i < Z.of_nat (length b)).
Proof. rewrite <- in_array_true. destruct (in_array b i); intuition congruence. Qed.

Lemma array_at_Ok b i x :
  0 <= i -> b !! Z.to_nat i = Some x -> array_at b i = Ok x.
Proof.
  intros Hi Hx. unfold array_at.
  assert (Hin : in_array b i = true).
  { apply in_array_true. apply lookup_lt_Some in Hx. lia. }
  rewrite Hin, Hx. reflexivity.
Qed.

Lemma array_at_Fault b i :
  ~ (0 <= i < Z.of_nat (length b)) -> array_at b i = Fault i.
Proof.
  intros Hi. unfold array_at.
  apply in_array_false in Hi. rewrite Hi. reflexivity.
Qed.

Lemma array_at_in_range b i :
  0 <= i < Z.of_nat (length b) -> exists x, b !! Z.to_nat i = Some x /\ array_at b i = Ok x.
Proof.
  intros Hi.
  destruct (lookup_lt_is_Some_2 b (Z.to_nat i)) as [x Hx]; [lia|].
  exists x. split; [exact Hx|]. apply array_at_Ok; [lia|exact Hx].
Qed.

Lemma buf_read_Ok s i x :
  0 <= i -> _buf s !! Z.to_nat i = Some x -> buf_read i s = (Ok x, s).
Proof. intros Hi Hx. unfold buf_read. rewrite (array_at_Ok _ _ x); auto. Qed.

Lemma buf_read_Fault s i :
  ~ (0 <= i < Z.of_nat (length (_buf s))) -> buf_read i s = (Fault i, s).
Proof. intros Hi. unfold buf_read. rewrite array_at_Fault; auto. Qed.

Lemma buf_write_Ok s i x :
  0 <= i < Z.of_nat (length (_buf s)) ->
  buf_write i x s =
    (Ok tt, mk_fixed_vector (_capacity s) (_current_size s) (<[Z.to_nat i := x]> (_buf s))).
Proof.
  intros Hi. unfold buf_write.
  apply in_array_true in Hi. rewrite Hi. reflexivity.
Qed.

Lemma buf_write_Fault s i x :
  ~ (0 <= i < Z.of_nat (length (_buf s))) -> buf_write i x s = (Fault i, s).
Proof.
  intros Hi. unfold buf_write.
  apply in_array_false in Hi. rewrite Hi. reflexivity.
Qed.

End ArrayFacts.

(** ** Empty containers *)

Section EmptyContainer.

Context {T : Type} `{!MoveConstructible T}.
Implicit Types (s : fixed_vector T).

Lemma pop_back_checked_empty s :
  _current_size s = 0 -> pop_back Checked s = (Throw EmptyContainer, s).
Proof.
  intros Hn. unfold pop_back, bind, get_size, throw.
  rewrite Hn. reflexivity.
Qed.

Lemma pop_front_checked_empty s :
  _current_size s = 0 -> pop_front Checked s = (Throw EmptyContainer, s).
Proof.
  intros Hn. unfold pop_front, bind, get_size, throw.
  rewrite Hn. reflexivity.
Qed.

Lemma pop_back_noexcept_empty s x rest :
  _current_size s = 0 -> _buf s = x :: rest ->
  pop_back NoExcept s = (Ok x, s).
Proof.
  intros Hn Hb. unfold pop_back, bind, get_size.
  rewrite Hn. simpl. apply buf_read_Ok; [lia|].
  rewrite Hb. reflexivity.
Qed.

Lemma unsafe_left_shift_by_one_empty s :
  _current_size s = 0 ->
  unsafe_left_shift_by_one s =
    (Ok tt, mk_fixed_vector (_capacity s) SIZE_MAX (_buf s)).
Proof.
  intros Hn. unfold unsafe_left_shift_by_one, bind, get_size, for_lt, set_size.
  rewrite Hn. simpl. rewrite wrap_minus_one. reflexivity.
Qed.

Lemma pop_front_noexcept_empty s x rest :
  _current_size s = 0 -> _buf s = x :: rest ->
  pop_front NoExcept s =
    (Ok x, mk_fixed_vector (_capacity s) SIZE_MAX (_buf s)).
Proof.
  intros Hn Hb. unfold pop_front, bind, ret.
  rewrite (buf_read_Ok s 0 x); [|lia|rewrite Hb; reflexivity].
  rewrite unsafe_left_shift_by_one_empty by exact Hn. reflexivity.
Qed.

Lemma reverse_empty s :
  storage_ok s -> _current_size s = 0 -> reverse s = (Fault SIZE_MAX, s).
Proof.
  intros [[Hc1 Hc2] Hlen] Hn.
  unfold reverse, bind, get_size, for_le. rewrite Hn. simpl.
  unfold reverse_step, bind, get_size, buf_read.
  destruct (array_at_in_range (_buf s) 0) as (x & _ & Hx); [lia|].
  rewrite Hx, Hn, wrap_minus_one, Z.sub_0_r.
  rewrite wrap_small by (rewrite SIZE_MAX_eq; lia).
  rewrite array_at_Fault; [reflexivity|].
  rewrite SIZE_MAX_eq. lia.
Qed.

End EmptyContainer.

(** ** Indexed access *)

Section IndexedAccess.

Context {T : Type} `{!MoveConstructible T}.
Implicit Types (s : fixed_vector T).

Lemma operator_index_checked_cases s pos :
  0 <= pos < SIZE_MODULUS -> 0 <= _current_size s < SIZE_MODULUS ->
  Z.of_nat (length (_buf s)) = _capacity s ->
  operator_index Checked pos s =
    if decide (_current_size s = 0 \/ _current_size s <= pos)
    then (Throw IndexOutOfRange, s)
    else if decide (_capacity s < _current_size s)
         then (Throw InvariantViolation, s)
         else (Ok pos, s).
Proof.
  intros Hpos Hn Hlen.
  unfold operator_index, bind, get_size, get_capacity, throw.
  destruct (Z.eqb_spec (_current_size s) 0) as [H0|H0]; simpl.
  - rewrite decide_True by (left; exact H0). reflexivity.
  - rewrite wrap_small by lia.
    destruct (Z.ltb_spec (_current_size s - 1) pos) as [Hlt|Hge].
    + rewrite decide_True by (right; lia). reflexivity.
    + rewrite decide_False by lia.
      destruct (Z.ltb_spec (_capacity s) (_current_size s)) as [Hc|Hc].
      * rewrite decide_True by lia. reflexivity.
      * rewrite decide_False by lia.
        unfold buf_ref.
        assert (Hin : in_array (_buf s) pos = true) by (apply in_array_true; lia).
        rewrite Hin. reflexivity.
Qed.

End IndexedAccess.

(** ** Running [bind] *)

Section BindFacts.

Context {T : Type} `{!MoveConstructible T}.

Lemma bind_Ok {A B : Type} (m : M A) (f : A -> M B) (s s' : fixed_vector T) a :
  m s = (Ok a, s') -> bind m f s = f a s'.
Proof. intros H. unfold bind. rewrite H. reflexivity. Qed.

Lemma bind_Throw {A B : Type} (m : M A) (f : A -> M B) (s s' : fixed_vector T) e :
  m s = (Throw e, s') -> bind m f s = (Throw e, s').
Proof. intros H. unfold bind. rewrite H. reflexivity. Qed.

Lemma bind_Fault {A B : Type} (m : M A) (f : A -> M B) (s s' : fixed_vector T) i :
  m s = (Fault i, s') -> bind m f s = (Fault i, s').
Proof. intros H. unfold bind. rewrite H. reflexivity. Qed.

End BindFacts.

(** ** The shift loops *)

Section Shifts.

Context {T : Type} `{!MoveConstructible T}.
Implicit Types (s : fixed_vector T) (b : list T).

(** One loop step [_buf[dst] = _buf[src]]. *)
Lemma copy_slot_run s (src dst : Z) y :
  0 <= src -> _buf s !! Z.to_nat src = Some y ->
  0 <= dst < Z.of_nat (length (_buf s)) ->
  bind (buf_read src) (fun x => buf_write dst x) s =
    (Ok tt, mk_fixed_vector (_capacity s) (_current_size s)
              (<[Z.to_nat dst := y]> (_buf s))).
Proof.
  intros Hsrc Hy Hdst. unfold bind.
  rewrite (buf_read_Ok s src y) by assumption.
  apply buf_write_Ok. exact Hdst.
Qed.

(** The loop of [unsafe_right_shift_by_one], started at [i = n] with
    slot [n] inside the array: slots [1..n] receive their left neighbour. *)
Lemma right_shift_loop_run (n : nat) : forall s,
  (n < length (_buf s))%nat ->
  exists b',
    for_down n (fun i => bind (buf_read (i - 1)) (fun x => buf_write i x)) s =
      (Ok tt, mk_fixed_vector (_capacity s) (_current_size s) b') /\
    length b' = length (_buf s) /\
    forall j : nat,
      b' !! j = if decide (1 <= j <= n)%nat then _buf s !! (j - 1)%nat else _buf s !! j.
Proof.
  induction n as [|k IH]; intros s Hn.
  - exists (_buf s). split; [destruct s; reflexivity|]. split; [reflexivity|].
    intros j. rewrite decide_False by lia. reflexivity.
  - destruct (lookup_lt_is_Some_2 (_buf s) k) as [y Hy]; [lia|].
    cbn [for_down]. unfold bind at 1.
    rewrite (copy_slot_run s _ _ y); [| lia | | lia].
    2:{ replace (Z.to_nat (Z.of_nat (S k) - 1)) with k by lia. exact Hy. }
    rewrite Nat2Z.id.
    set (s1 := mk_fixed_vector _ _ _).
    destruct (IH s1) as (b' & Hrun & Hlen & Hlook).
    { subst s1; cbn. rewrite length_insert. lia. }
    exists b'. subst s1; cbn in *. split; [exact Hrun|].
    split; [rewrite Hlen; apply length_insert|].
    intros j. rewrite Hlook.
    destruct (decide (j = S k)) as [->|Hj].
    + rewrite decide_False, decide_True by lia.
      rewrite list_lookup_insert_eq by lia. rewrite <- Hy. f_equal. lia.
    + repeat case_decide; try lia; rewrite list_lookup_insert_ne by lia; reflexivity.
Qed.

(** Started with [i = CAPACITY], the first step writes past the array. *)
Lemma right_shift_loop_fault s :
  (0 < length (_buf s))%nat ->
  for_down (length (_buf s))
    (fun i => bind (buf_read (i - 1)) (fun x => buf_write i x)) s =
    (Fault (Z.of_nat (length (_buf s))), s).
Proof.
  intros Hpos. destruct (length (_buf s)) as [|k] eqn:Hlen; [lia|].
  destruct (lookup_lt_is_Some_2 (_buf s) k) as [y Hy]; [lia|].
  cbn [for_down]. unfold bind at 1. unfold bind at 1.
  rewrite (buf_read_Ok s _ y); [| lia |].
  2:{ replace (Z.to_nat (Z.of_nat (S k) - 1)) with k by lia. exact Hy. }
  rewrite buf_write_Fault by lia. reflexivity.
Qed.

(** The loop of [unsafe_left_shift_by_one] from counter [i] for [c]
    steps: slots [i-1 .. i+c-2] receive their right neighbour. *)
Lemma left_shift_loop_run (c : nat) : forall (i : nat) s,
  (1 <= i)%nat -> (i + c <= length (_buf s))%nat ->
  exists b',
    for_up c (Z.of_nat i)
      (fun i => bind (buf_read i) (fun x => buf_write (i - 1) x)) s =
      (Ok tt, mk_fixed_vector (_capacity s) (_current_size s) b') /\
    length b' = length (_buf s) /\
    forall j : nat,
      b' !! j = if decide (i - 1 <= j < i - 1 + c)%nat
                then _buf s !! (S j) else _buf s !! j.
Proof.
  induction c as [|c IH]; intros i s Hi Hc.
  - exists (_buf s). split; [destruct s; reflexivity|]. split; [reflexivity|].
    intros j. rewrite decide_False by lia. reflexivity.
  - destruct (lookup_lt_is_Some_2 (_buf s) i) as [y Hy]; [lia|].
    cbn [for_up]. unfold bind at 1.
    rewrite (copy_slot_run s _ _ y); [| lia | | lia].
    2:{ rewrite Nat2Z.id. exact Hy. }
    replace (Z.to_nat (Z.of_nat i - 1)) with (i - 1)%nat by lia.
    replace (Z.of_nat i + 1) with (Z.of_nat (S i)) by lia.
    set (s1 := mk_fixed_vector _ _ _).
    destruct (IH (S i) s1) as (b' & Hrun & Hlen & Hlook); [lia| |].
    { subst s1; cbn. rewrite length_insert. lia. }
    exists b'. subst s1; cbn in *. split; [exact Hrun|].
    split; [rewrite Hlen; apply length_insert|].
    intros j. rewrite Hlook.
    destruct (decide (j = i - 1)%nat) as [->|Hj].
    + rewrite decide_False, decide_True by lia.
      rewrite list_lookup_insert_eq by lia. rewrite <- Hy. f_equal. lia.
    + repeat case_decide; try lia; rewrite list_lookup_insert_ne by lia; reflexivity.
Qed.

End Shifts.

(** ** Pushing and popping at the front *)

Section Front.

Context {T : Type} `{!MoveConstructible T}.
Implicit Types (s : fixed_vector T) (b : list T).

Lemma unsafe_right_shift_by_one_run s :
  storage_ok s -> 0 <= _current_size s -> _current_size s + 1 < _capacity s ->
  exists b',
    unsafe_right_shift_by_one s =
      (Ok tt, mk_fixed_vector (_capacity s) (_current_size s + 1) b') /\
    length b' = length (_buf s) /\
    forall j : nat,
      b' !! j = if decide (1 <= j <= Z.to_nat (_current_size s) + 1)%nat
                then _buf s !! (j - 1)%nat else _buf s !! j.
Proof.
  intros [[Hc1 Hc2] Hlen] Hn0 Hn.
  unfold unsafe_right_shift_by_one, bind, get_size, set_size. cbn.
  rewrite wrap_small by lia.
  set (s1 := mk_fixed_vector _ _ _).
  destruct (right_shift_loop_run (Z.to_nat (_current_size s + 1)) s1)
    as (b' & Hrun & Hlen' & Hlook).
  { subst s1; cbn. lia. }
  exists b'. subst s1; cbn in *. split; [exact Hrun|]. split; [exact Hlen'|].
  intros j. rewrite Hlook.
  repeat case_decide; try lia; reflexivity.
Qed.

Lemma unsafe_right_shift_by_one_fault s :
  storage_ok s -> _current_size s + 1 = _capacity s ->
  unsafe_right_shift_by_one s =
    (Fault (_capacity s),
     mk_fixed_vector (_capacity s) (_capacity s) (_buf s)).
Proof.
  intros [[Hc1 Hc2] Hlen] Hn.
  unfold unsafe_right_shift_by_one, bind, get_size, set_size. cbn.
  rewrite wrap_small by lia. rewrite Hn.
  pose proof (right_shift_loop_fault
                (mk_fixed_vector (_capacity s) (_capacity s) (_buf s))) as Hf.
  cbn [_buf] in Hf.
  replace (length (_buf s)) with (Z.to_nat (_capacity s)) in Hf by lia.
  rewrite Z2Nat.id in Hf by lia.
  apply Hf. lia.
Qed.

Lemma push_front_run mode (val : T) s :
  storage_ok s -> 0 <= _current_size s -> _current_size s + 1 < _capacity s ->
  exists b',
    push_front mode val s =
      (Ok tt, mk_fixed_vector (_capacity s) (_current_size s + 1) b') /\
    length b' = length (_buf s) /\
    forall j : nat,
      b' !! j = if decide (j = 0)%nat then Some val
                else if decide (j <= Z.to_nat (_current_size s) + 1)%nat
                     then _buf s !! (j - 1)%nat else _buf s !! j.
Proof.
  intros Hst Hn0 Hn.
  destruct (unsafe_right_shift_by_one_run s Hst Hn0 Hn) as (b1 & Hrun & Hlen1 & Hlook).
  destruct Hst as [[Hc1 Hc2] Hlen].
  unfold push_front, bind at 1, get_size. unfold bind at 1, get_capacity.
  rewrite (proj2 (Z.eqb_neq _ _)) by lia.
  unfold bind. rewrite Hrun.
  rewrite buf_write_Ok by (cbn; lia). cbn.
  exists (<[0%nat := val]> b1). split; [reflexivity|].
  split; [rewrite length_insert; exact Hlen1|].
  intros j. destruct (decide (j = 0)%nat) as [->|Hj].
  - apply list_lookup_insert_eq. lia.
  - rewrite list_lookup_insert_ne by lia. rewrite Hlook.
    repeat case_decide; try lia; reflexivity.
Qed.

(** With one free slot left, [push_front] passes its capacity test and
    then stores to [_buf[CAPACITY]]. *)
Lemma push_front_fault mode (val : T) s :
  storage_ok s -> _current_size s + 1 = _capacity s ->
  push_front mode val s =
    (Fault (_capacity s),
     mk_fixed_vector (_capacity s) (_capacity s) (_buf s)).
Proof.
  intros Hst Hn.
  unfold push_front, bind at 1, get_size. unfold bind at 1, get_capacity.
  rewrite (proj2 (Z.eqb_neq _ _)) by lia.
  unfold bind. rewrite unsafe_right_shift_by_one_fault by assumption.
  reflexivity.
Qed.

Lemma push_front_logical mode (val : T) s :
  storage_ok s -> 0 <= _current_size s -> _current_size s + 1 < _capacity s ->
  exists s',
    push_front mode val s = (Ok tt, s') /\
    storage_ok s' /\ _capacity s' = _capacity s /\
    _current_size s' = _current_size s + 1 /\
    logical s' = val :: logical s.
Proof.
  intros Hst Hn0 Hn.
  destruct (push_front_run mode val s Hst Hn0 Hn) as (b' & Hrun & Hlen' & Hlook).
  destruct Hst as [[Hc1 Hc2] Hlen].
  eexists. split; [exact Hrun|]. cbn.
  split; [split; cbn; lia|]. split; [reflexivity|]. split; [reflexivity|].
  unfold logical; cbn. apply list_eq. intros j.
  destruct (decide (j < Z.to_nat (_current_size s + 1))%nat) as [Hj|Hj].
  - rewrite lookup_take_lt by lia. rewrite Hlook.
    destruct j as [|j]; [reflexivity|].
    rewrite decide_False, decide_True by lia. cbn.
    symmetry. etransitivity; [apply lookup_take_lt; lia|]. f_equal. lia.
  - rewrite lookup_take_ge by lia. symmetry.
    apply lookup_ge_None. cbn. rewrite length_take. lia.
Qed.

Lemma unsafe_left_shift_by_one_run s :
  storage_ok s -> 1 <= _current_size s <= _capacity s ->
  exists b',
    unsafe_left_shift_by_one s =
      (Ok tt, mk_fixed_vector (_capacity s) (_current_size s - 1) b') /\
    length b' = length (_buf s) /\
    forall j : nat,
      b' !! j = if decide (j < Z.to_nat (_current_size s) - 1)%nat
                then _buf s !! (S j) else _buf s !! j.
Proof.
  intros [[Hc1 Hc2] Hlen] Hn.
  destruct (left_shift_loop_run (Z.to_nat (_current_size s - 1)) 1 s)
    as (b' & Hrun & Hlen' & Hlook); [lia|lia|].
  change (Z.of_nat 1) with 1 in Hrun.
  unfold unsafe_left_shift_by_one.
  rewrite (bind_Ok _ _ s s (_current_size s)) by reflexivity.
  unfold for_lt. rewrite (bind_Ok _ _ _ _ tt Hrun).
  unfold set_size; cbn. rewrite wrap_small by lia.
  exists b'. split; [reflexivity|]. split; [exact Hlen'|].
  intros j. rewrite Hlook.
  repeat case_decide; try lia; reflexivity.
Qed.

Lemma pop_front_run mode s :
  storage_ok s -> 1 <= _current_size s <= _capacity s ->
  exists y b',
    _buf s !! 0%nat = Some y /\
    pop_front mode s =
      (Ok y, mk_fixed_vector (_capacity s) (_current_size s - 1) b') /\
    length b' = length (_buf s) /\
    forall j : nat,
      b' !! j = if decide (j < Z.to_nat (_current_size s) - 1)%nat
                then _buf s !! (S j) else _buf s !! j.
Proof.
  intros Hst Hn.
  destruct (unsafe_left_shift_by_one_run s Hst Hn) as (b' & Hrun & Hlen' & Hlook).
  destruct Hst as [[Hc1 Hc2] Hlen].
  destruct (lookup_lt_is_Some_2 (_buf s) 0) as [y Hy]; [lia|].
  exists y, b'. split; [exact Hy|]. split; [|split; assumption].
  assert (Hgo : bind (buf_read 0)
            (fun val => bind unsafe_left_shift_by_one (fun _ => ret val)) s =
          (Ok y, mk_fixed_vector (_capacity s) (_current_size s - 1) b')).
  { unfold bind. rewrite (buf_read_Ok s 0 y) by (auto; lia).
    rewrite Hrun. reflexivity. }
  unfold pop_front. destruct mode.
  - unfold bind at 1. unfold bind at 1, get_size.
    rewrite (proj2 (Z.eqb_neq _ _)) by lia. unfold ret at 1. exact Hgo.
  - unfold bind at 1, ret at 1. exact Hgo.
Qed.

Lemma pop_front_logical mode s :
  storage_ok s -> 1 <= _current_size s <= _capacity s ->
  exists y s',
    logical s !! 0%nat = Some y /\
    pop_front mode s = (Ok y, s') /\
    storage_ok s' /\ _capacity s' = _capacity s /\
    _current_size s' = _current_size s - 1 /\
    logical s' = drop 1 (logical s).
Proof.
  intros Hst Hn.
  destruct (pop_front_run mode s Hst Hn) as (y & b' & Hy & Hrun & Hlen' & Hlook).
  destruct Hst as [[Hc1 Hc2] Hlen].
  exists y. eexists. split.
  { unfold logical. rewrite lookup_take_lt by lia. exact Hy. }
  split; [exact Hrun|]. cbn.
  split; [split; cbn; lia|]. split; [reflexivity|]. split; [reflexivity|].
  unfold logical; cbn. apply list_eq. intros j.
  rewrite lookup_drop.
  destruct (decide (j < Z.to_nat (_current_size s - 1))%nat) as [Hj|Hj].
  - rewrite !lookup_take_lt by lia. rewrite Hlook.
    rewrite decide_True by lia. reflexivity.
  - rewrite !lookup_take_ge by lia. reflexivity.
Qed.

(** X2. With at least two free slots, [push_front(val)] then
    [pop_front()] returns [val] and restores the size and the logical
    sequence, in both build modes. *)
Theorem push_front_pop_front mode (val : T) s :
  storage_ok s -> 0 <= _current_size s -> _current_size s + 1 < _capacity s ->
  exists s1 s2,
    push_front mode val s = (Ok tt, s1) /\
    pop_front mode s1 = (Ok val, s2) /\
    _current_size s2 = _current_size s /\
    logical s2 = logical s.
Proof.
  intros Hst Hn0 Hn.
  destruct (push_front_logical mode val s Hst Hn0 Hn)
    as (s1 & Hpush & Hst1 & Hcap1 & Hsz1 & Hlog1).
  destruct (pop_front_logical mode s1 Hst1) as (y & s2 & Hy & Hpop & _ & _ & Hsz2 & Hlog2).
  { lia. }
  exists s1, s2. split; [exact Hpush|].
  rewrite Hlog1 in Hy. cbn in Hy. injection Hy as <-.
  split; [exact Hpop|]. split; [lia|].
  rewrite Hlog2, Hlog1. reflexivity.
Qed.

End Front.

(** ** Pushing and popping at the back, and the capacity test *)

Section Back.

Context {T : Type} `{!MoveConstructible T}.
Implicit Types (s : fixed_vector T) (b : list T).

Lemma push_back_run mode (val : T) s :
  storage_ok s -> 0 <= _current_size s < _capacity s ->
  push_back mode val s =
    (Ok tt, mk_fixed_vector (_capacity s) (_current_size s + 1)
              (<[Z.to_nat (_current_size s) := val]> (_buf s))).
Proof.
  intros [[Hc1 Hc2] Hlen] Hn.
  unfold push_back.
  rewrite (bind_Ok _ _ s s (_current_size s)) by reflexivity.
  rewrite (bind_Ok _ _ s s (_capacity s)) by reflexivity.
  rewrite (proj2 (Z.eqb_neq _ _)) by lia.
  erewrite bind_Ok by (apply buf_write_Ok; lia).
  unfold set_size; cbn. rewrite wrap_small by lia. reflexivity.
Qed.

Lemma push_back_logical mode (val : T) s :
  storage_ok s -> 0 <= _current_size s < _capacity s ->
  exists s',
    push_back mode val s = (Ok tt, s') /\
    storage_ok s' /\ _capacity s' = _capacity s /\
    _current_size s' = _current_size s + 1 /\
    logical s' = logical s ++ [val].
Proof.
  intros Hst Hn. eexists. split; [apply push_back_run; assumption|].
  destruct Hst as [[Hc1 Hc2] Hlen]. cbn.
  split; [split; cbn; [lia|rewrite length_insert; lia]|].
  split; [reflexivity|]. split; [reflexivity|].
  unfold logical; cbn.
  replace (Z.to_nat (_current_size s + 1)) with (S (Z.to_nat (_current_size s))) by lia.
  rewrite (take_S_r _ _ val) by (apply list_lookup_insert_eq; lia).
  rewrite take_insert_ge by lia. reflexivity.
Qed.

(** Both pushes start with the same test [_current_size == _capacity]. *)
Lemma push_back_full_checked (val : T) s :
  _current_size s = _capacity s ->
  push_back Checked val s = (Throw CapacityExceeded, s).
Proof.
  intros Hn. unfold push_back, bind, get_size, get_capacity, throw.
  rewrite Hn, Z.eqb_refl. reflexivity.
Qed.

Lemma push_front_full_checked (val : T) s :
  _current_size s = _capacity s ->
  push_front Checked val s = (Throw CapacityExceeded, s).
Proof.
  intros Hn. unfold push_front, bind, get_size, get_capacity, throw.
  rewrite Hn, Z.eqb_refl. reflexivity.
Qed.

Lemma push_back_full_noexcept (val : T) s :
  _current_size s = _capacity s -> push_back NoExcept val s = (Ok tt, s).
Proof.
  intros Hn. unfold push_back, bind, get_size, get_capacity, ret.
  rewrite Hn, Z.eqb_refl. reflexivity.
Qed.

Lemma push_front_full_noexcept (val : T) s :
  _current_size s = _capacity s -> push_front NoExcept val s = (Ok tt, s).
Proof.
  intros Hn. unfold push_front, bind, get_size, get_capacity, ret.
  rewrite Hn, Z.eqb_refl. reflexivity.
Qed.

Lemma buf_move_Ok s (i : Z) x :
  0 <= i -> _buf s !! Z.to_nat i = Some x ->
  buf_move i s =
    (Ok x, mk_fixed_vector (_capacity s) (_current_size s)
             (<[Z.to_nat i := moved_from x]> (_buf s))).
Proof.
  intros Hi Hx. unfold buf_move.
  rewrite (bind_Ok _ _ s s x) by (apply buf_read_Ok; assumption).
  erewrite bind_Ok; [reflexivity|].
  apply buf_write_Ok. apply lookup_lt_Some in Hx. lia.
Qed.

(** The last slot of the logical range is read by a move: it is left
    moved-from, and no other slot changes. *)
Lemma pop_back_run mode s :
  storage_ok s -> 1 <= _current_size s <= _capacity s ->
  exists y,
    _buf s !! Z.to_nat (_current_size s - 1) = Some y /\
    pop_back mode s =
      (Ok y, mk_fixed_vector (_capacity s) (_current_size s - 1)
               (<[Z.to_nat (_current_size s - 1) := moved_from y]> (_buf s))).
Proof.
  intros [[Hc1 Hc2] Hlen] Hn.
  destruct (lookup_lt_is_Some_2 (_buf s) (Z.to_nat (_current_size s - 1)))
    as [y Hy]; [lia|].
  exists y. split; [exact Hy|].
  unfold pop_back.
  rewrite (bind_Ok _ _ s s (_current_size s)) by reflexivity.
  rewrite (proj2 (Z.eqb_neq _ _)) by lia.
  erewrite bind_Ok by reflexivity.
  erewrite bind_Ok by reflexivity.
  cbn [_current_size]. rewrite wrap_small by lia.
  rewrite (buf_move_Ok _ _ y); [reflexivity|lia|exact Hy].
Qed.

(** X3. With a free slot, [push_back(val)] then [pop_back()] returns
    [val] and restores the size and the logical sequence, in both build
    modes. *)
Theorem push_back_pop_back mode (val : T) s :
  storage_ok s -> 0 <= _current_size s < _capacity s ->
  exists s1 s2,
    push_back mode val s = (Ok tt, s1) /\
    pop_back mode s1 = (Ok val, s2) /\
    _current_size s2 = _current_size s /\
    logical s2 = logical s.
Proof.
  intros Hst Hn.
  destruct (push_back_logical mode val s Hst Hn)
    as (s1 & Hpush & Hst1 & Hcap1 & Hsz1 & Hlog1).
  destruct (pop_back_run mode s1 Hst1) as (y & Hy & Hpop); [lia|].
  exists s1. eexists. split; [exact Hpush|].
  assert (y = val) as ->.
  { rewrite push_back_run in Hpush by assumption.
    injection Hpush as <-. cbn in Hy.
    replace (Z.to_nat (_current_size s + 1 - 1)) with (Z.to_nat (_current_size s)) in Hy by lia.
    destruct Hst as [_ Hlen].
    rewrite list_lookup_insert_eq in Hy by lia. congruence. }
  split; [exact Hpop|]. cbn. split; [lia|].
  destruct Hst as [[Hc1 Hc2] Hlen].
  unfold logical in *; cbn.
  rewrite Hsz1.
  replace (Z.to_nat (_current_size s + 1 - 1)) with (Z.to_nat (_current_size s)) by lia.
  rewrite take_insert_ge by lia.
  rewrite Hsz1 in Hlog1.
  replace (Z.to_nat (_current_size s + 1)) with (S (Z.to_nat (_current_size s))) in Hlog1 by lia.
  apply (f_equal (take (Z.to_nat (_current_size s)))) in Hlog1.
  rewrite take_take in Hlog1.
  rewrite Nat.min_l in Hlog1 by lia.
  rewrite Hlog1. rewrite take_app_le by (rewrite length_take; lia).
  rewrite take_take. f_equal. lia.
Qed.

(** A run of [push_back] calls into free slots. *)
Lemma push_back_all_run mode (vals : list T) : forall s,
  storage_ok s -> 0 <= _current_size s ->
  _current_size s + Z.of_nat (length vals) <= _capacity s ->
  exists s',
    run_operations mode (OpPushBack <$> vals) s = (Ok tt, s') /\
    storage_ok s' /\ _capacity s' = _capacity s /\
    _current_size s' = _current_size s + Z.of_nat (length vals) /\
    logical s' = logical s ++ vals.
Proof.
  induction vals as [|v vals IH]; intros s Hst Hn0 Hn.
  - exists s. cbn. split; [reflexivity|]. split; [assumption|].
    split; [reflexivity|]. split; [lia|]. rewrite app_nil_r. reflexivity.
  - cbn [length] in Hn.
    destruct (push_back_logical mode v s Hst) as (s1 & Hpush & Hst1 & Hcap1 & Hsz1 & Hlog1); [lia|].
    destruct (IH s1 Hst1) as (s' & Hrun & Hst' & Hcap' & Hsz' & Hlog'); [lia|lia|].
    exists s'. split.
    { cbn [fmap list_fmap run_operations run_operation].
      rewrite (bind_Ok _ _ _ _ tt Hpush). exact Hrun. }
    split; [assumption|]. split; [congruence|].
    split; [cbn [length]; lia|].
    rewrite Hlog', Hlog1, <- app_assoc. reflexivity.
Qed.

Lemma run_operations_app mode (os1 os2 : list (@operation T)) s s1 :
  run_operations mode os1 s = (Ok tt, s1) ->
  run_operations mode (os1 ++ os2) s = run_operations mode os2 s1.
Proof.
  revert s. induction os1 as [|o os1 IH]; intros s Hrun.
  - cbn in Hrun. injection Hrun as ->. reflexivity.
  - cbn [app run_operations] in *. unfold bind in *.
    destruct (run_operation mode o s) as [[[]|e|i] s0]; try discriminate.
    apply IH. exact Hrun.
Qed.

End Back.

(** ** Equality *)

Section Equality.

Context {T : Type} `{!MoveConstructible T}.
Variable T_eq : T -> T -> bool.
Implicit Types (s v : fixed_vector T) (b : list T).

Lemma std_equal_run (c : nat) : forall (i : nat) b1 b2,
  (i + c <= length b1)%nat -> (i + c <= length b2)%nat ->
  exists r,
    std_equal T_eq c (Z.of_nat i) b1 b2 = Ok r /\
    (r = true <-> pairwise_equal T_eq (take c (drop i b1)) (take c (drop i b2))).
Proof.
  induction c as [|c IH]; intros i b1 b2 H1 H2.
  - exists true. split; [reflexivity|]. split; [intros _; constructor|reflexivity].
  - destruct (lookup_lt_is_Some_2 b1 i) as [x Hx]; [lia|].
    destruct (lookup_lt_is_Some_2 b2 i) as [y Hy]; [lia|].
    cbn [std_equal].
    rewrite (array_at_Ok b1 _ x), (array_at_Ok b2 _ y) by (rewrite ?Nat2Z.id; auto; lia).
    rewrite (drop_S b1 x i Hx), (drop_S b2 y i Hy). cbn [take].
    unfold pairwise_equal. setoid_rewrite Forall2_cons_iff.
    destruct (T_eq x y) eqn:Hxy.
    + replace (Z.of_nat i + 1) with (Z.of_nat (S i)) by lia.
      destruct (IH (S i) b1 b2) as (r & Hr & Hiff); [lia|lia|].
      exists r. split; [exact Hr|]. unfold pairwise_equal in Hiff. tauto.
    + exists false. split; [reflexivity|]. split; [discriminate|].
      intros [Hc _]; discriminate.
Qed.

(** [this == v] is [operator_eq T_eq v this]. *)
Lemma operator_eq_run v s :
  wf s -> wf v ->
  exists r,
    operator_eq T_eq v s = (Ok r, s) /\
    (r = true <->
       _current_size s = _current_size v /\ pairwise_equal T_eq (logical s) (logical v)).
Proof.
  intros [[[Hc1 Hc2] Hlen] [Hn0 Hn]] [[[Hd1 Hd2] Hlenv] [Hm0 Hm]].
  unfold operator_eq.
  rewrite (bind_Ok _ _ s s (_current_size s)) by reflexivity.
  unfold size.
  destruct (Z.eqb_spec (_current_size s) (_current_size v)) as [Heq|Hne].
  - destruct (std_equal_run (Z.to_nat (_current_size s)) 0 (_buf s) (_buf v))
      as (r & Hr & Hiff); [lia|lia|].
    change (Z.of_nat 0) with 0 in Hr. rewrite Hr.
    exists r. split; [reflexivity|].
    rewrite !drop_0 in Hiff. unfold logical. rewrite <- Heq. tauto.
  - exists false. split; [reflexivity|]. split; [discriminate|]. tauto.
Qed.

Lemma logical_length s : wf s -> Z.of_nat (length (logical s)) = _current_size s.
Proof.
  intros [[_ Hlen] [Hn0 Hn]]. unfold logical. rewrite length_take. lia.
Qed.

(** The result is a function of the two logical sequences only. *)
Lemma operator_eq_logical v s v' s' :
  wf s -> wf v -> wf s' -> wf v' ->
  logical s' = logical s -> logical v' = logical v ->
  fst (operator_eq T_eq v' s') = fst (operator_eq T_eq v s).
Proof.
  intros Hs Hv Hs' Hv' Hls Hlv.
  destruct (operator_eq_run v s Hs Hv) as (r & Hr & Hiff).
  destruct (operator_eq_run v' s' Hs' Hv') as (r' & Hr' & Hiff').
  rewrite Hr, Hr'. cbn. f_equal.
  rewrite Hls, Hlv in Hiff'.
  assert (Hsz : _current_size s' = _current_size s).
  { rewrite <- (logical_length s'), <- (logical_length s) by assumption. congruence. }
  assert (Hszv : _current_size v' = _current_size v).
  { rewrite <- (logical_length v'), <- (logical_length v) by assumption. congruence. }
  rewrite Hsz, Hszv in Hiff'.
  destruct r, r'; try reflexivity; intuition congruence.
Qed.

Lemma operator_eq_refl s :
  (forall x, T_eq x x = true) -> wf s -> operator_eq T_eq s s = (Ok true, s).
Proof.
  intros Hrefl Hs.
  destruct (operator_eq_run s s Hs Hs) as (r & Hr & Hiff).
  rewrite Hr. f_equal. f_equal. apply Hiff. split; [reflexivity|].
  unfold pairwise_equal. apply Forall2_same_length_lookup. split; [reflexivity|].
  intros i x y Hx Hy. rewrite Hx in Hy. injection Hy as <-. apply Hrefl.
Qed.

Lemma operator_eq_sym v s :
  (forall x y, T_eq x y = T_eq y x) -> wf s -> wf v ->
  fst (operator_eq T_eq v s) = fst (operator_eq T_eq s v).
Proof.
  intros Hsym Hs Hv.
  destruct (operator_eq_run v s Hs Hv) as (r & Hr & Hiff).
  destruct (operator_eq_run s v Hv Hs) as (r' & Hr' & Hiff').
  rewrite Hr, Hr'. cbn. f_equal.
  assert (Hflip : forall l1 l2, pairwise_equal T_eq l1 l2 -> pairwise_equal T_eq l2 l1).
  { intros l1 l2 H. unfold pairwise_equal in *. apply Forall2_flip.
    eapply Forall2_impl; [exact H|]. cbn. intros x y Hxy. rewrite Hsym. exact Hxy. }
  destruct r, r'; try reflexivity.
  - assert (false = true); [|congruence]. apply Hiff'.
    destruct (proj1 Hiff eq_refl) as [? ?]. split; [congruence|auto].
  - assert (false = true); [|congruence]. apply Hiff.
    destruct (proj1 Hiff' eq_refl) as [? ?]. split; [congruence|auto].
Qed.

End Equality.

(** ** Reversal *)

Section Reverse.

Context {T : Type} `{!MoveConstructible T}.
Implicit Types (s : fixed_vector T) (b : list T).

(** One pass of the loop body, for a counter below the size: slots [i]
    and [size - 1 - i] exchange their values. *)
Lemma reverse_step_run s (n i : nat) x y :
  _current_size s = Z.of_nat n -> Z.of_nat n < SIZE_MODULUS ->
  (i < n <= length (_buf s))%nat ->
  _buf s !! i = Some x -> _buf s !! (n - 1 - i)%nat = Some y ->
  reverse_step (Z.of_nat i) s =
    (Ok tt, mk_fixed_vector (_capacity s) (_current_size s)
              (<[(n - 1 - i)%nat := x]> (<[i := y]> (_buf s)))).
Proof.
  intros Hn Hmax Hi Hx Hy.
  assert (Hidx : wrap (wrap (Z.of_nat n - 1) - Z.of_nat i) = Z.of_nat (n - 1 - i)).
  { rewrite !wrap_small by (try rewrite wrap_small; lia). lia. }
  unfold reverse_step.
  rewrite (bind_Ok _ _ s s x) by (apply buf_read_Ok; [lia|rewrite Nat2Z.id; exact Hx]).
  rewrite (bind_Ok _ _ s s (_current_size s)) by reflexivity.
  rewrite Hn, Hidx.
  rewrite (bind_Ok _ _ s s y) by (apply buf_read_Ok; [lia|rewrite Nat2Z.id; exact Hy]).
  erewrite bind_Ok by (apply buf_write_Ok; lia).
  erewrite bind_Ok by reflexivity.
  cbn [_current_size]. rewrite Hn, Hidx.
  rewrite buf_write_Ok by (cbn; rewrite length_insert; lia).
  cbn. rewrite !Nat2Z.id. reflexivity.
Qed.

(** [c] passes from counter [i], while the two ends have not crossed:
    the slots visited and their mirror images hold mirrored values. *)
Lemma reverse_loop_run (n c : nat) : forall (i : nat) s,
  _current_size s = Z.of_nat n -> Z.of_nat n < SIZE_MODULUS ->
  (n <= length (_buf s))%nat -> (2 * (i + c) <= n + 1)%nat ->
  exists b',
    for_up c (Z.of_nat i) reverse_step s =
      (Ok tt, mk_fixed_vector (_capacity s) (_current_size s) b') /\
    length b' = length (_buf s) /\
    forall j : nat,
      b' !! j = if decide (i <= j < i + c \/ n - (i + c) <= j < n - i)%nat
                then _buf s !! (n - 1 - j)%nat else _buf s !! j.
Proof.
  induction c as [|c IH]; intros i s Hn Hmax Hlen Hc.
  - exists (_buf s). split; [destruct s; reflexivity|]. split; [reflexivity|].
    intros j. rewrite decide_False by lia. reflexivity.
  - destruct (lookup_lt_is_Some_2 (_buf s) i) as [x Hx]; [lia|].
    destruct (lookup_lt_is_Some_2 (_buf s) (n - 1 - i)) as [y Hy]; [lia|].
    cbn [for_up].
    rewrite (bind_Ok _ _ _ _ tt (reverse_step_run s n i x y Hn Hmax ltac:(lia) Hx Hy)).
    replace (Z.of_nat i + 1) with (Z.of_nat (S i)) by lia.
    set (s1 := mk_fixed_vector _ _ _).
    destruct (IH (S i) s1) as (b' & Hrun & Hlen' & Hlook);
      [exact Hn | exact Hmax | subst s1; cbn; rewrite !length_insert; lia | lia |].
    exists b'. subst s1; cbn in *. split; [exact Hrun|].
    split; [rewrite Hlen', !length_insert; reflexivity|].
    intros j. rewrite Hlook.
    destruct (decide (j = n - 1 - i)%nat) as [->|Hj1].
    + rewrite decide_False, decide_True by lia.
      rewrite list_lookup_insert_eq by (rewrite length_insert; lia).
      rewrite <- Hx. f_equal. lia.
    + destruct (decide (j = i)) as [->|Hj2].
      * rewrite decide_False, decide_True by lia.
        rewrite list_lookup_insert_ne by lia.
        rewrite list_lookup_insert_eq by lia. symmetry. exact Hy.
      * repeat case_decide; try lia;
          rewrite !list_lookup_insert_ne by lia; reflexivity.
Qed.

(** Peeling the last pass off a counting loop. *)
Lemma for_up_snoc (body : Z -> M unit) (c : nat) : forall (i : Z) s s',
  for_up (T:=T) c i body s = (Ok tt, s') ->
  for_up (S c) i body s = body (i + Z.of_nat c) s'.
Proof.
  induction c as [|c IH]; intros i s s' Hrun.
  - cbn in Hrun. injection Hrun as <-. cbn [for_up].
    rewrite Z.add_0_r. unfold bind, ret.
    destruct (body i s) as [[[]|e|k] s0]; reflexivity.
  - cbn [for_up] in Hrun. unfold bind at 1 in Hrun.
    change (for_up (S (S c)) i body s)
      with (bind (body i) (fun _ => for_up (S c) (i + 1) body) s).
    unfold bind at 1.
    destruct (body i s) as [[[]|e|k] s0]; try discriminate.
    rewrite (IH (i + 1) s0 s' Hrun). f_equal. lia.
Qed.

(** X1. For an odd size [reverse] returns, keeps capacity and size,
    reverses the logical sequence and leaves the slots after it alone: the
    last pass exchanges the middle slot with itself. *)
Theorem reverse_odd s (k : nat) :
  storage_ok s -> _current_size s = Z.of_nat (2 * k + 1) ->
  _current_size s <= _capacity s ->
  exists s',
    reverse s = (Ok tt, s') /\
    _capacity s' = _capacity s /\ _current_size s' = _current_size s /\
    logical s' = rev (logical s) /\
    drop (2 * k + 1) (_buf s') = drop (2 * k + 1) (_buf s).
Proof.
  intros [[Hc1 Hc2] Hlen] Hn Hcap.
  destruct (reverse_loop_run (2 * k + 1) (k + 1) 0 s Hn)
    as (b' & Hrun & Hlen' & Hlook); [lia|lia|lia|].
  eexists. split.
  { unfold reverse. rewrite (bind_Ok _ _ s s (_current_size s)) by reflexivity.
    unfold for_le. rewrite Hn.
    replace (Z.to_nat (Z.of_nat (2 * k + 1) / 2 + 1 - 0)) with (k + 1)%nat.
    - exact Hrun.
    - replace (Z.of_nat (2 * k + 1) / 2) with (Z.of_nat k); [lia|].
      apply Z.div_unique with (r := 1); lia. }
  cbn. split; [reflexivity|]. split; [reflexivity|].
  unfold logical; cbn. rewrite Hn, Nat2Z.id. split.
  - apply list_eq. intros j.
    destruct (decide (j < 2 * k + 1)%nat) as [Hj|Hj].
    + rewrite lookup_take_lt by lia. rewrite Hlook, decide_True by lia.
      rewrite rev_alt.
      etransitivity;
        [|symmetry; apply (reverse_lookup (take (2 * k + 1) (_buf s)) j);
          rewrite length_take; lia].
      rewrite length_take, lookup_take_lt by lia. f_equal. lia.
    + rewrite lookup_take_ge by lia. symmetry. apply lookup_ge_None.
      rewrite length_rev, length_take. lia.
  - apply list_eq. intros j. rewrite !lookup_drop, Hlook.
    rewrite decide_False by lia. reflexivity.
Qed.

(** Even sizes: after [size/2] passes the sequence is reversed, and the
    extra pass with [i = size/2] exchanges slots [size/2] and
    [size/2 - 1] once more. *)
Lemma reverse_even s (k : nat) :
  storage_ok s -> _current_size s = Z.of_nat (2 * k) -> (1 <= k)%nat ->
  _current_size s <= _capacity s ->
  exists b',
    reverse s = (Ok tt, mk_fixed_vector (_capacity s) (_current_size s) b') /\
    length b' = length (_buf s) /\
    forall j : nat,
      b' !! j = if decide (j < 2 * k /\ j <> k /\ j <> k - 1)%nat
                then _buf s !! (2 * k - 1 - j)%nat else _buf s !! j.
Proof.
  intros [[Hc1 Hc2] Hlen] Hn Hk Hcap.
  destruct (reverse_loop_run (2 * k) k 0 s Hn)
    as (b1 & Hrun & Hlen1 & Hlook1); [lia|lia|lia|].
  set (s1 := mk_fixed_vector (_capacity s) (_current_size s) b1) in *.
  destruct (lookup_lt_is_Some_2 b1 k) as [x Hx]; [lia|].
  destruct (lookup_lt_is_Some_2 b1 (2 * k - 1 - k)) as [y Hy]; [lia|].
  pose proof (reverse_step_run s1 (2 * k) k x y Hn ltac:(lia)
                ltac:(subst s1; cbn; lia) Hx Hy) as Hstep.
  eexists. split.
  { unfold reverse. rewrite (bind_Ok _ _ s s (_current_size s)) by reflexivity.
    unfold for_le.
    replace (Z.to_nat (_current_size s / 2 + 1 - 0)) with (S k).
    - change 0 with (Z.of_nat 0).
      rewrite (for_up_snoc _ _ _ _ _ Hrun). exact Hstep.
    - replace (_current_size s / 2) with (Z.of_nat k); [lia|].
      apply Z.div_unique with (r := 0); lia. }
  subst s1; cbn [_buf _capacity _current_size] in *.
  split; [rewrite !length_insert; exact Hlen1|].
  intros j.
  rewrite Hlook1 in Hx, Hy.
  rewrite decide_True in Hx by lia. rewrite decide_True in Hy by lia.
  destruct (decide (j = 2 * k - 1 - k)%nat) as [->|Hj1].
  - rewrite list_lookup_insert_eq by (rewrite length_insert; lia).
    rewrite decide_False by lia. rewrite <- Hx. f_equal; lia.
  - rewrite list_lookup_insert_ne by lia.
    destruct (decide (j = k)) as [->|Hj2].
    + rewrite list_lookup_insert_eq by lia.
      rewrite decide_False by lia. rewrite <- Hy. f_equal; lia.
    + rewrite list_lookup_insert_ne by lia. rewrite Hlook1.
      repeat case_decide; try lia; reflexivity.
Qed.

End Reverse.

(** ** The size invariant *)

Section Invariant.

Context {T : Type} `{!MoveConstructible T}.
Implicit Types (s : fixed_vector T) (b : list T).

Lemma same_shape_refl s : same_shape s s.
Proof. repeat split. Qed.

Lemma same_shape_trans s1 s2 s3 :
  same_shape s1 s2 -> same_shape s2 s3 -> same_shape s1 s3.
Proof. unfold same_shape. intuition congruence. Qed.

Lemma keeps_shape_ret {A : Type} (a : A) : keeps_shape (T:=T) (ret a).
Proof. intros s. apply same_shape_refl. Qed.




Lemma keeps_shape_bind {A B : Type} (m : M A) (f : A -> M B) :
  keeps_shape (T:=T) m -> (forall a, keeps_shape (f a)) -> keeps_shape (bind m f).
Proof.
  intros Hm Hf s. unfold bind. specialize (Hm s).
  destruct (m s) as [[a|e|i] s1]; cbn in *; try exact Hm.
  eapply same_shape_trans; [exact Hm|apply Hf].
Qed.


Lemma keeps_shape_for_down (body : Z -> M unit) (n : nat) :
  (forall j, keeps_shape (T:=T) (body j)) -> keeps_shape (for_down n body).
Proof.
  intros Hbody. induction n as [|n IH]; cbn [for_down].
  - apply keeps_shape_ret.
  - apply keeps_shape_bind; [apply Hbody|]. intros _. exact IH.
Qed.



Lemma operator_index_state mode pos s : snd (operator_index mode pos s) = s.
Proof.
  unfold operator_index, bind, get_size, get_capacity, throw, buf_ref.
  destruct ((_current_size s =? 0) || (wrap (_current_size s - 1) <? pos)).
  - destruct mode; [reflexivity|]. destruct (in_array (_buf s) 0); reflexivity.
  - destruct (_capacity s <? _current_size s).
    + destruct mode; [reflexivity|]. destruct (in_array (_buf s) 0); reflexivity.
    + destruct (in_array (_buf s) pos); reflexivity.
Qed.








End Invariant.

(** ** Filling an object *)

Section Filling.

Context {T : Type} `{!MoveConstructible T}.
Implicit Types (s : fixed_vector T) (os : list (@operation T)).

(** Pushes of either kind that leave at least one slot free all return. *)
Lemma pushes_run mode os : forall s,
  forallb is_push os = true ->
  storage_ok s -> 0 <= _current_size s ->
  _current_size s + Z.of_nat (length os) < _capacity s ->
  exists s',
    run_operations mode os s = (Ok tt, s') /\
    storage_ok s' /\ _capacity s' = _capacity s /\
    _current_size s' = _current_size s + Z.of_nat (length os).
Proof.
  induction os as [|o os IH]; intros s Hpush Hst Hn0 Hn.
  - exists s. cbn. split; [reflexivity|]. split; [assumption|]. split; lia.
  - cbn [length forallb] in *. apply andb_true_iff in Hpush as [Ho Hos].
    assert (Hone : exists s1, run_operation mode o s = (Ok tt, s1) /\
              storage_ok s1 /\ _capacity s1 = _capacity s /\
              _current_size s1 = _current_size s + 1).
    { destruct o as [val|val| | | | |pos|v]; try discriminate Ho; cbn [run_operation].
      - destruct (push_back_logical mode val s Hst) as (s1 & H1 & H2 & H3 & H4 & _); [lia|].
        exists s1. auto.
      - destruct (push_front_logical mode val s Hst) as (s1 & H1 & H2 & H3 & H4 & _); [lia|lia|].
        exists s1. auto. }
    destruct Hone as (s1 & Hrun1 & Hst1 & Hcap1 & Hsz1).
    destruct (IH s1 Hos Hst1) as (s' & Hrun & Hst' & Hcap' & Hsz'); [lia|lia|].
    exists s'. split.
    { cbn [run_operations]. rewrite (bind_Ok _ _ _ _ tt Hrun1). exact Hrun. }
    split; [assumption|]. split; lia.
Qed.

Lemma fixed_vector_default_storage_ok (CAPACITY : nat) (dflt : T) :
  0 < Z.of_nat CAPACITY < SIZE_MODULUS - 1 ->
  storage_ok (fixed_vector_default CAPACITY dflt).
Proof. intros HC. split; cbn; [lia|]. rewrite length_replicate. reflexivity. Qed.

(** X5. In checked mode, [CAPACITY] pushes into an empty object, the
    last one a [push_back]: all return, the size is [CAPACITY], and one
    more push of either kind throws the capacity error and changes
    nothing. *)
Theorem fill_last_push_back (CAPACITY : nat) (dflt val : T) os :
  0 < Z.of_nat CAPACITY < SIZE_MODULUS - 1 ->
  length os = (CAPACITY - 1)%nat -> forallb is_push os = true ->
  exists s',
    run_operations Checked (os ++ [OpPushBack val]) (fixed_vector_default CAPACITY dflt)
      = (Ok tt, s') /\
    size s' = Z.of_nat CAPACITY /\ capacity s' = Z.of_nat CAPACITY /\
    forall extra,
      push_back Checked extra s' = (Throw CapacityExceeded, s') /\
      push_front Checked extra s' = (Throw CapacityExceeded, s').
Proof.
  intros HC Hlen Hpush.
  pose proof (fixed_vector_default_storage_ok CAPACITY dflt HC) as Hst.
  destruct (pushes_run Checked os _ Hpush Hst) as (s1 & Hrun & Hst1 & Hcap1 & Hsz1);
    [cbn; lia | cbn; lia |].
  cbn in Hcap1, Hsz1.
  destruct (push_back_logical Checked val s1 Hst1) as (s2 & Hrun2 & _ & Hcap2 & Hsz2 & _);
    [lia|].
  exists s2. split.
  { rewrite (run_operations_app _ _ _ _ _ Hrun). cbn [run_operations run_operation].
    rewrite (bind_Ok _ _ _ _ tt Hrun2). reflexivity. }
  unfold size, capacity. split; [lia|]. split; [lia|].
  intros extra. split.
  - apply push_back_full_checked. lia.
  - apply push_front_full_checked. lia.
Qed.

(** The same with a [push_front] last: it stores past the array. *)
Lemma fill_last_push_front mode (CAPACITY : nat) (dflt val : T) os :
  0 < Z.of_nat CAPACITY < SIZE_MODULUS - 1 ->
  length os = (CAPACITY - 1)%nat -> forallb is_push os = true ->
  fst (run_operations mode (os ++ [OpPushFront val]) (fixed_vector_default CAPACITY dflt))
  = Fault (Z.of_nat CAPACITY).
Proof.
  intros HC Hlen Hpush.
  pose proof (fixed_vector_default_storage_ok CAPACITY dflt HC) as Hst.
  destruct (pushes_run mode os _ Hpush Hst) as (s1 & Hrun & Hst1 & Hcap1 & Hsz1);
    [cbn; lia | cbn; lia |].
  cbn in Hcap1, Hsz1.
  rewrite (run_operations_app _ _ _ _ _ Hrun).
  cbn [run_operations run_operation].
  erewrite bind_Fault; [|apply push_front_fault; [exact Hst1|lia]].
  cbn. congruence.
Qed.

End Filling.

(** ** Worked examples on [fixed_vector<int, N>] *)

(** The scenario of the specification, capacity 4: [push_back(1)],
    [push_back(2)], [push_front(0)] give [0, 1, 2]. *)
Example scenario_three_pushes :
  run_operations Checked [OpPushBack 1; OpPushBack 2; OpPushFront 0]
    (fixed_vector_default 4 0)
  = (Ok tt, mk_fixed_vector 4 3 [0; 1; 2; 0]).
Proof. vm_compute. reflexivity. Qed.

(** ... then [pop_back()] returns 2 and leaves [0, 1]. *)
Example scenario_pop_back :
  pop_back Checked (mk_fixed_vector 4 3 [0; 1; 2; 0])
  = (Ok 2, mk_fixed_vector 4 2 [0; 1; 2; 0]).
Proof. vm_compute. reflexivity. Qed.

(** ... then two [push_back(2)] fill the vector and a third one throws. *)
Example scenario_fill_and_overflow :
  run_operations Checked [OpPushBack 2; OpPushBack 2; OpPushBack 2]
    (mk_fixed_vector 4 2 [0; 1; 2; 0])
  = (Throw CapacityExceeded, mk_fixed_vector 4 4 [0; 1; 2; 2]).
Proof. vm_compute. reflexivity. Qed.

(** Two construction paths to the logical sequence [1, 2]. *)
Example construct_from_initializer_list :
  fixed_vector_of_init 4 0 [1; 2] = Ok (mk_fixed_vector 4 2 [1; 2; 0; 0]).
Proof. vm_compute. reflexivity. Qed.

Example construct_by_pushes_and_pop :
  run_operations Checked [OpPushBack 1; OpPushBack 2; OpPushBack 3; OpPopBack]
    (fixed_vector_default 4 0)
  = (Ok tt, mk_fixed_vector 4 2 [1; 2; 3; 0]).
Proof. vm_compute. reflexivity. Qed.

Example index_empty_checked :
  operator_index Checked 0 (fixed_vector_default 4 0)
  = (Throw IndexOutOfRange, fixed_vector_default 4 0).
Proof. vm_compute. reflexivity. Qed.

Example reverse_three :
  reverse (mk_fixed_vector 4 3 [1; 2; 3; 9]) = (Ok tt, mk_fixed_vector 4 3 [3; 2; 1; 9]).
Proof. vm_compute. reflexivity. Qed.

Example reverse_two :
  reverse (mk_fixed_vector 2 2 [1; 2]) = (Ok tt, mk_fixed_vector 2 2 [1; 2]).
Proof. vm_compute. reflexivity. Qed.

Example reverse_four :
  reverse (mk_fixed_vector 4 4 [1; 2; 3; 4]) = (Ok tt, mk_fixed_vector 4 4 [4; 2; 3; 1]).
Proof. vm_compute. reflexivity. Qed.

Example push_front_two_free_slots :
  push_front Checked 0 (mk_fixed_vector 4 2 [1; 2; 8; 9])
  = (Ok tt, mk_fixed_vector 4 3 [0; 1; 2; 8]).
Proof. vm_compute. reflexivity. Qed.

Example push_front_one_free_slot :
  push_front Checked 0 (mk_fixed_vector 4 3 [1; 2; 3; 9])
  = (Fault 4, mk_fixed_vector 4 4 [1; 2; 3; 9]).
Proof. vm_compute. reflexivity. Qed.

Example pop_front_three :
  pop_front Checked (mk_fixed_vector 4 3 [1; 2; 3; 9])
  = (Ok 1, mk_fixed_vector 4 2 [2; 3; 3; 9]).
Proof. vm_compute. reflexivity. Qed.

Example pop_front_noexcept_empty_example :
  pop_front NoExcept (fixed_vector_default 1 7)
  = (Ok 7, mk_fixed_vector 1 18446744073709551615 [7]).
Proof. vm_compute. reflexivity. Qed.

(** * The claims *)

Ltac solve_closed :=
  repeat split;
  first [ reflexivity | lia
        | vm_compute; first [reflexivity | intro; discriminate] ].

Section Claims.

Context {T : Type} `{!MoveConstructible T}.
Implicit Types (s v : fixed_vector T).

(** C1 (fails on the code). One call of [reverse] should leave at every
    logical position [i] the element that was at [size-1-i].  For every
    even size [2k >= 2] the loop [i <= size/2] makes one pass too many: the
    call returns with the size unchanged, and slots [k] and [k-1] hold what
    they held before the call instead of each other's value. *)
Theorem C1_reverse_even_size_keeps_middle s (k : nat) :
  storage_ok s -> _current_size s = Z.of_nat (2 * k) -> (1 <= k)%nat ->
  _current_size s <= _capacity s ->
  exists b',
    reverse s = (Ok tt, mk_fixed_vector (_capacity s) (_current_size s) b') /\
    b' !! k = _buf s !! k /\
    b' !! (k - 1)%nat = _buf s !! (k - 1)%nat.
Proof.
  intros Hst Hn Hk Hcap.
  destruct (reverse_even s k Hst Hn Hk Hcap) as (b' & Hrun & _ & Hlook).
  exists b'. split; [exact Hrun|].
  rewrite !Hlook. rewrite !decide_False by lia. split; reflexivity.
Qed.

(** C2 (fails on the code). [push_front] on an object with a free slot
    should touch only slots below [CAPACITY].  With exactly one free slot
    ([size = CAPACITY - 1]) the shift starts at [i = size + 1 = CAPACITY]
    and its first assignment is to [_buf[CAPACITY]]. *)
Theorem C2_push_front_one_free_slot_writes_past_array mode (val : T) s :
  storage_ok s -> _current_size s + 1 = _capacity s ->
  push_front mode val s =
    (Fault (_capacity s), mk_fixed_vector (_capacity s) (_capacity s) (_buf s)).
Proof. apply push_front_fault. Qed.

(** C3 (fails on the code). With [FIXED_VECTOR_NOEXCEPT] defined,
    [pop_front] on an empty object should behave as [pop_back] does:
    return slot 0 and change nothing.  [pop_back] does; [pop_front]
    returns slot 0 and leaves [_current_size] at [2^64 - 1]. *)
Theorem C3_pop_front_noexcept_empty_wraps_size s (x : T) rest :
  _current_size s = 0 -> _buf s = x :: rest ->
  pop_back NoExcept s = (Ok x, s) /\
  pop_front NoExcept s =
    (Ok x, mk_fixed_vector (_capacity s) SIZE_MAX (_buf s)).
Proof.
  intros Hn Hb. split.
  - apply (pop_back_noexcept_empty s x rest); assumption.
  - apply (pop_front_noexcept_empty s x rest); assumption.
Qed.

(** C4 (fails on the code). [reverse] on an empty object should do no
    swap.  The loop test [0 <= 0 / 2] lets the body run once, and its
    second statement reads [_buf[0 - 1 - 0]], slot [2^64 - 1]. *)
Theorem C4_reverse_empty_reads_past_array s :
  storage_ok s -> _current_size s = 0 -> reverse s = (Fault SIZE_MAX, s).
Proof. apply reverse_empty. Qed.

(** C5 (fails on the code). Every public operation should keep
    [0 <= size <= capacity].  With [FIXED_VECTOR_NOEXCEPT] defined,
    [pop_front] on an empty well-formed object returns normally and leaves
    a size above the capacity. *)
Theorem C5_pop_front_noexcept_breaks_invariant s :
  wf s -> _current_size s = 0 ->
  exists s',
    run_operation NoExcept OpPopFront s = (Ok tt, s') /\
    _capacity s' < _current_size s'.
Proof.
  intros [[[Hc1 Hc2] Hlen] _] Hn.
  destruct (_buf s) as [|x rest] eqn:Hb; [cbn in Hlen; lia|].
  eexists. split.
  - cbn [run_operation].
    rewrite (bind_Ok _ _ _ _ x (pop_front_noexcept_empty s x rest Hn Hb)).
    reflexivity.
  - cbn. rewrite SIZE_MAX_eq. lia.
Qed.

(** C6 (fails on the code). Starting empty, [CAPACITY] pushes of either
    kind should all succeed.  Whatever the first [CAPACITY - 1] pushes are,
    when the last one is a [push_front] it does not return: it assigns to
    [_buf[CAPACITY]]. *)
Theorem C6_last_push_front_writes_past_array (CAPACITY : nat) (dflt val : T)
    (os : list (@operation T)) :
  0 < Z.of_nat CAPACITY < SIZE_MODULUS - 1 ->
  length os = (CAPACITY - 1)%nat -> forallb is_push os = true ->
  fst (run_operations Checked (os ++ [OpPushFront val])
         (fixed_vector_default CAPACITY dflt))
  = Fault (Z.of_nat CAPACITY).
Proof. apply fill_last_push_front. Qed.

(** C7. In checked mode [pop_back] and [pop_front] on an object of size 0
    throw the empty-container error and leave the object, size and slots,
    as it was. *)
Theorem C7_pop_empty_checked_throws s :
  _current_size s = 0 ->
  pop_back Checked s = (Throw EmptyContainer, s) /\
  pop_front Checked s = (Throw EmptyContainer, s).
Proof.
  intros Hn. split.
  - apply pop_back_checked_empty; exact Hn.
  - apply pop_front_checked_empty; exact Hn.
Qed.

(** C8 (fails on the code). [push_front] then [pop_front] on an object
    with a free slot should return the pushed value.  With exactly one
    free slot the [push_front] does not return, so neither does the pair. *)
Theorem C8_push_front_pop_front_one_free_slot mode (val : T) s :
  storage_ok s -> _current_size s + 1 = _capacity s ->
  bind (push_front mode val) (fun _ => pop_front mode) s =
    (Fault (_capacity s), mk_fixed_vector (_capacity s) (_capacity s) (_buf s)).
Proof.
  intros Hst Hn. apply bind_Fault. apply push_front_fault; assumption.
Qed.

(** C9, as amended. On well-formed objects [this == v] returns true
    exactly when the sizes agree and the logical elements are pairwise
    equal in order; the result depends on the two logical sequences only,
    so slots at or after the size never matter; it is reflexive when the
    element type's [==] is reflexive and symmetric when the element
    type's [==] is symmetric. *)
Theorem C9_operator_eq_compares_logical_sequences (T_eq : T -> T -> bool) s v :
  wf s -> wf v ->
  (exists r,
     operator_eq T_eq v s = (Ok r, s) /\
     (r = true <->
        size s = size v /\ pairwise_equal T_eq (logical s) (logical v))) /\
  (forall s' v', wf s' -> wf v' ->
     logical s' = logical s -> logical v' = logical v ->
     fst (operator_eq T_eq v' s') = fst (operator_eq T_eq v s)) /\
  ((forall x, T_eq x x = true) -> operator_eq T_eq s s = (Ok true, s)) /\
  ((forall x y, T_eq x y = T_eq y x) ->
     fst (operator_eq T_eq v s) = fst (operator_eq T_eq s v)).
Proof.
  intros Hs Hv. split; [|split; [|split]].
  - apply operator_eq_run; assumption.
  - intros s' v' Hs' Hv' Hls Hlv. apply operator_eq_logical; assumption.
  - intros Hrefl. apply operator_eq_refl; assumption.
  - intros Hsym. apply operator_eq_sym; assumption.
Qed.

(** C10. In checked mode [operator[](pos)] throws the out-of-range error
    exactly when the size is 0 or [pos >= size]; with [pos < size <=
    capacity] it returns the slot of the element at logical position
    [pos]; with [pos < size] and [size > capacity] it throws the
    invariant-violation error, which is a different exception. *)
Theorem C10_operator_index_checked (pos : Z) s :
  0 <= pos < SIZE_MODULUS -> 0 <= _current_size s < SIZE_MODULUS ->
  Z.of_nat (length (_buf s)) = _capacity s ->
  (operator_index Checked pos s = (Throw IndexOutOfRange, s) <->
     _current_size s = 0 \/ _current_size s <= pos) /\
  (_current_size s <= _capacity s -> pos < _current_size s ->
     operator_index Checked pos s = (Ok pos, s) /\
     exists x, logical s !! Z.to_nat pos = Some x /\ array_at (_buf s) pos = Ok x) /\
  (_capacity s < _current_size s -> pos < _current_size s ->
     operator_index Checked pos s = (Throw InvariantViolation, s)) /\
  InvariantViolation <> IndexOutOfRange.
Proof.
  intros Hpos Hn Hlen.
  rewrite (operator_index_checked_cases s pos Hpos Hn Hlen).
  split; [|split; [|split]].
  - split.
    + repeat case_decide; intros Hthrow; try discriminate Hthrow; assumption.
    + intros H. rewrite decide_True by exact H. reflexivity.
  - intros Hcap Hlt.
    rewrite decide_False by lia. rewrite decide_False by lia.
    split; [reflexivity|].
    destruct (array_at_in_range (_buf s) pos) as (x & Hx & Hat); [lia|].
    exists x. split; [|exact Hat].
    unfold logical. rewrite lookup_take_lt by lia. exact Hx.
  - intros Hcap Hlt.
    rewrite decide_False by lia. rewrite decide_True by lia. reflexivity.
  - discriminate.
Qed.

End Claims.

(** ** The claims at concrete objects *)

(** C1 at [{1, 2}] in a vector of capacity 2: both slots keep their value. *)
Lemma C1_reverse_even_size_keeps_middle_witness :
  storage_ok (mk_fixed_vector 2 2 [1; 2]) /\
  exists b',
    reverse (mk_fixed_vector 2 2 [1; 2]) = (Ok tt, mk_fixed_vector 2 2 b') /\
    b' !! 1%nat = Some 2 /\ b' !! 0%nat = Some 1.
Proof.
  split; [solve_closed|].
  apply (C1_reverse_even_size_keeps_middle (mk_fixed_vector 2 2 [1; 2]) 1);
    solve_closed.
Defined.

(** C2 at capacity 4 with three elements. *)
Lemma C2_push_front_one_free_slot_writes_past_array_witness :
  storage_ok (mk_fixed_vector 4 3 [1; 2; 3; 0]) /\
  push_front Checked 7 (mk_fixed_vector 4 3 [1; 2; 3; 0]) =
    (Fault 4, mk_fixed_vector 4 4 [1; 2; 3; 0]).
Proof.
  split; [solve_closed|].
  apply (C2_push_front_one_free_slot_writes_past_array Checked 7
           (mk_fixed_vector 4 3 [1; 2; 3; 0])); solve_closed.
Defined.

(** C3 at a default-constructed vector of capacity 1. *)
Lemma C3_pop_front_noexcept_empty_wraps_size_witness :
  pop_back NoExcept (fixed_vector_default 1 0) = (Ok 0, fixed_vector_default 1 0) /\
  pop_front NoExcept (fixed_vector_default 1 0) =
    (Ok 0, mk_fixed_vector 1 SIZE_MAX [0]).
Proof.
  apply (C3_pop_front_noexcept_empty_wraps_size (fixed_vector_default 1 0) 0 []);
    reflexivity.
Defined.

(** C4 at a default-constructed vector of capacity 3. *)
Lemma C4_reverse_empty_reads_past_array_witness :
  storage_ok (fixed_vector_default 3 0) /\
  reverse (fixed_vector_default 3 0) = (Fault SIZE_MAX, fixed_vector_default 3 0).
Proof.
  split; [solve_closed|].
  apply (C4_reverse_empty_reads_past_array (fixed_vector_default 3 0)); solve_closed.
Defined.

(** C5 at a default-constructed vector of capacity 2. *)
Lemma C5_pop_front_noexcept_breaks_invariant_witness :
  wf (fixed_vector_default 2 0) /\
  exists s',
    run_operation NoExcept OpPopFront (fixed_vector_default 2 0) = (Ok tt, s') /\
    _capacity s' < _current_size s'.
Proof.
  split; [solve_closed|].
  apply (C5_pop_front_noexcept_breaks_invariant (fixed_vector_default 2 0));
    solve_closed.
Defined.

(** C6 at capacity 3: [push_back(1); push_back(2); push_front(0)]. *)
Lemma C6_last_push_front_writes_past_array_witness :
  fst (run_operations Checked [OpPushBack 1; OpPushBack 2; OpPushFront 0]
         (fixed_vector_default 3 0)) = Fault 3.
Proof.
  apply (C6_last_push_front_writes_past_array 3 0 0 [OpPushBack 1; OpPushBack 2]);
    solve_closed.
Defined.

(** C7 at a default-constructed vector of capacity 4. *)
Lemma C7_pop_empty_checked_throws_witness :
  pop_back Checked (fixed_vector_default 4 0) =
    (Throw EmptyContainer, fixed_vector_default 4 0) /\
  pop_front Checked (fixed_vector_default 4 0) =
    (Throw EmptyContainer, fixed_vector_default 4 0).
Proof.
  apply (C7_pop_empty_checked_throws (fixed_vector_default 4 0)). reflexivity.
Defined.

(** C8 at a default-constructed vector of capacity 1. *)
Lemma C8_push_front_pop_front_one_free_slot_witness :
  storage_ok (fixed_vector_default 1 0) /\
  bind (push_front Checked 5) (fun _ => pop_front Checked) (fixed_vector_default 1 0) =
    (Fault 1, mk_fixed_vector 1 1 [0]).
Proof.
  split; [solve_closed|].
  apply (C8_push_front_pop_front_one_free_slot Checked 5 (fixed_vector_default 1 0));
    solve_closed.
Defined.

(** C9 at two vectors of capacity 4 holding [1, 2]: one from an
    initializer list, one left by [push_back] of 1, 2, 3 and a [pop_back]. *)
Lemma C9_operator_eq_compares_logical_sequences_witness :
  wf (mk_fixed_vector 4 2 [1; 2; 0; 0]) /\
  wf (mk_fixed_vector 4 2 [1; 2; 3; 0]) /\
  operator_eq Z.eqb (mk_fixed_vector 4 2 [1; 2; 3; 0]) (mk_fixed_vector 4 2 [1; 2; 0; 0]) =
    (Ok true, mk_fixed_vector 4 2 [1; 2; 0; 0]).
Proof.
  split; [solve_closed|]. split; [solve_closed|].
  destruct (C9_operator_eq_compares_logical_sequences Z.eqb
              (mk_fixed_vector 4 2 [1; 2; 0; 0]) (mk_fixed_vector 4 2 [1; 2; 3; 0]))
    as [(r & Hr & Hiff) _]; [solve_closed|solve_closed|].
  rewrite Hr. f_equal. f_equal. apply Hiff. split; [reflexivity|].
  repeat constructor.
Defined.

(** C9 as first stated, with reflexivity and symmetry for every element
    type, fails: a vector holding a NaN is not equal to itself, and with
    an element [==] that is not symmetric [a == b] and [b == a] differ. *)
Lemma C9_operator_eq_not_reflexive_counterexample :
  wf (mk_fixed_vector 1 1 [NaN]) /\
  operator_eq number_eq (mk_fixed_vector 1 1 [NaN]) (mk_fixed_vector 1 1 [NaN]) =
    (Ok false, mk_fixed_vector 1 1 [NaN]) /\
  operator_eq one_sided_eq (mk_fixed_vector 1 1 [2]) (mk_fixed_vector 1 1 [1]) =
    (Ok true, mk_fixed_vector 1 1 [1]) /\
  operator_eq one_sided_eq (mk_fixed_vector 1 1 [1]) (mk_fixed_vector 1 1 [2]) =
    (Ok false, mk_fixed_vector 1 1 [2]).
Proof. solve_closed. Qed.

(** C10 at a vector of capacity 4 and size 3, index 2. *)
Lemma C10_operator_index_checked_witness :
  operator_index Checked 2 (mk_fixed_vector 4 3 [1; 2; 3; 0]) =
    (Ok 2, mk_fixed_vector 4 3 [1; 2; 3; 0]) /\
  exists x,
    logical (mk_fixed_vector 4 3 [1; 2; 3; 0]) !! Z.to_nat 2 = Some x /\
    array_at [1; 2; 3; 0] 2 = Ok x.
Proof.
  apply (C10_operator_index_checked 2 (mk_fixed_vector 4 3 [1; 2; 3; 0]));
    solve_closed.
Defined.

(** ** Further properties at concrete objects *)

(** X1 at [{1, 2, 3}] in a vector of capacity 4. *)
Lemma reverse_odd_witness :
  exists s',
    reverse (mk_fixed_vector 4 3 [1; 2; 3; 9]) = (Ok tt, s') /\
    _capacity s' = 4 /\ _current_size s' = 3 /\
    logical s' = [3; 2; 1] /\
    drop 3 (_buf s') = [9].
Proof.
  apply (reverse_odd (mk_fixed_vector 4 3 [1; 2; 3; 9]) 1); solve_closed.
Defined.

(** X2 at [{1, 2}] in a vector of capacity 4. *)
Lemma push_front_pop_front_witness :
  exists s1 s2,
    push_front Checked 7 (mk_fixed_vector 4 2 [1; 2; 0; 0]) = (Ok tt, s1) /\
    pop_front Checked s1 = (Ok 7, s2) /\
    _current_size s2 = 2 /\
    logical s2 = [1; 2].
Proof.
  apply (push_front_pop_front Checked 7 (mk_fixed_vector 4 2 [1; 2; 0; 0]));
    solve_closed.
Defined.

(** X3 at [{1, 2, 3}] in a vector of capacity 4. *)
Lemma push_back_pop_back_witness :
  exists s1 s2,
    push_back Checked 7 (mk_fixed_vector 4 3 [1; 2; 3; 0]) = (Ok tt, s1) /\
    pop_back Checked s1 = (Ok 7, s2) /\
    _current_size s2 = 3 /\
    logical s2 = [1; 2; 3].
Proof.
  apply (push_back_pop_back Checked 7 (mk_fixed_vector 4 3 [1; 2; 3; 0]));
    solve_closed.
Defined.


(** X5 at capacity 3: [push_front(1); push_back(2); push_back(3)]. *)
Lemma fill_last_push_back_witness :
  exists s',
    run_operations Checked [OpPushFront 1; OpPushBack 2; OpPushBack 3]
      (fixed_vector_default 3 0) = (Ok tt, s') /\
    size s' = 3 /\ capacity s' = 3 /\
    forall extra,
      push_back Checked extra s' = (Throw CapacityExceeded, s') /\
      push_front Checked extra s' = (Throw CapacityExceeded, s').
Proof.
  apply (fill_last_push_back 3 0 3 [OpPushFront 1; OpPushBack 2]); solve_closed.
Defined.

(** * Further behaviour of the container *)

(** ** Constructors and [clear] *)

Section Construction.

Context {T : Type} `{!MoveConstructible T}.
Implicit Types (s v : fixed_vector T).

(** X6. An initializer list no longer than [CAPACITY] gives a well-formed
    object whose logical sequence is the list and whose other slots are
    value-initialised; a longer list is copied past the array. *)
Theorem fixed_vector_of_init_logical (CAPACITY : nat) (dflt : T) (init_list : list T) :
  0 < Z.of_nat CAPACITY < SIZE_MODULUS - 1 ->
  ((length init_list <= CAPACITY)%nat ->
     exists s,
       fixed_vector_of_init CAPACITY dflt init_list = Ok s /\
       wf s /\ capacity s = Z.of_nat CAPACITY /\
       size s = Z.of_nat (length init_list) /\
       logical s = init_list /\
       drop (length init_list) (_buf s) =
         replicate (CAPACITY - length init_list) dflt) /\
  ((CAPACITY < length init_list)%nat ->
     fixed_vector_of_init CAPACITY dflt init_list = Fault (Z.of_nat CAPACITY)).
Proof.
  intros HC. split; intros Hlen; unfold fixed_vector_of_init.
  - rewrite (proj2 (Nat.leb_le _ _)) by exact Hlen.
    eexists. split; [reflexivity|].
    split.
    { split; [split; cbn; [lia|]|split; cbn; lia].
      rewrite length_app, length_replicate. lia. }
    split; [reflexivity|]. split; [reflexivity|].
    unfold logical; cbn. rewrite Nat2Z.id. split.
    + apply take_app_length.
    + apply drop_app_length.
  - rewrite (proj2 (Nat.leb_gt _ _)) by exact Hlen. reflexivity.
Qed.

(** X7. An object built from a full array is well-formed and full: its
    logical sequence is the array, and in checked mode a push of either
    kind throws the capacity error and changes nothing. *)
Theorem fixed_vector_of_array_full (a : list T) :
  0 < Z.of_nat (length a) < SIZE_MODULUS - 1 ->
  wf (fixed_vector_of_array a) /\
  size (fixed_vector_of_array a) = capacity (fixed_vector_of_array a) /\
  logical (fixed_vector_of_array a) = a /\
  forall val,
    push_back Checked val (fixed_vector_of_array a) =
      (Throw CapacityExceeded, fixed_vector_of_array a) /\
    push_front Checked val (fixed_vector_of_array a) =
      (Throw CapacityExceeded, fixed_vector_of_array a).
Proof.
  intros Ha. split; [|split; [|split]].
  - repeat split; cbn; lia.
  - reflexivity.
  - unfold logical; cbn. rewrite Nat2Z.id. apply take_ge. lia.
  - intros val. split.
    + apply push_back_full_checked. reflexivity.
    + apply push_front_full_checked. reflexivity.
Qed.

(** X9. [clear()] only resets the size: every slot keeps its value, the
    logical sequence is empty, the object compares equal to every empty
    object, and a checked [pop_back] on it throws. *)
Theorem clear_empties (T_eq : T -> T -> bool) s v :
  wf s -> wf v -> _current_size v = 0 ->
  exists s',
    clear s = (Ok tt, s') /\
    _buf s' = _buf s /\ _capacity s' = _capacity s /\
    logical s' = [] /\
    operator_eq T_eq v s' = (Ok true, s') /\
    pop_back Checked s' = (Throw EmptyContainer, s').
Proof.
  intros Hs Hv Hv0.
  exists (mk_fixed_vector (_capacity s) 0 (_buf s)).
  split; [reflexivity|]. split; [reflexivity|]. split; [reflexivity|].
  split; [reflexivity|].
  assert (Hs' : wf (mk_fixed_vector (_capacity s) 0 (_buf s))).
  { destruct Hs as [[Hc Hlen] [Hn0 Hn]]. repeat split; cbn; lia. }
  split.
  - destruct (operator_eq_run T_eq v _ Hs' Hv) as (r & Hr & Hiff).
    rewrite Hr. f_equal. f_equal. apply Hiff. cbn. split; [congruence|].
    unfold logical. rewrite Hv0. cbn. constructor.
  - apply pop_back_checked_empty. reflexivity.
Qed.

End Construction.

(** ** The four end operations on the logical sequence *)

Section EndOperations.

Context {T : Type} `{!MoveConstructible T}.
Implicit Types (s : fixed_vector T).

(** X10. With a free slot, [push_back(val)] returns, appends [val] to the
    logical sequence and changes no slot but the one at the old size. *)
Theorem push_back_appends mode (val : T) s :
  storage_ok s -> 0 <= _current_size s < _capacity s ->
  exists s',
    push_back mode val s = (Ok tt, s') /\
    _capacity s' = _capacity s /\
    _current_size s' = _current_size s + 1 /\
    logical s' = logical s ++ [val] /\
    forall j : nat, j <> Z.to_nat (_current_size s) -> _buf s' !! j = _buf s !! j.
Proof.
  intros Hst Hn.
  destruct (push_back_logical mode val s Hst Hn) as (s' & Hrun & _ & Hcap & Hsz & Hlog).
  exists s'. repeat (split; [assumption|]).
  rewrite push_back_run in Hrun by assumption. injection Hrun as <-. cbn.
  intros j Hj. apply list_lookup_insert_ne. lia.
Qed.

(** X11. With at least two free slots, [push_front(val)] returns, puts
    [val] in front of the logical sequence and changes no slot after the
    one following the old size. *)
Theorem push_front_prepends mode (val : T) s :
  storage_ok s -> 0 <= _current_size s -> _current_size s + 1 < _capacity s ->
  exists s',
    push_front mode val s = (Ok tt, s') /\
    _capacity s' = _capacity s /\
    _current_size s' = _current_size s + 1 /\
    logical s' = val :: logical s /\
    forall j : nat, (Z.to_nat (_current_size s) + 1 < j)%nat -> _buf s' !! j = _buf s !! j.
Proof.
  intros Hst Hn0 Hn.
  destruct (push_front_logical mode val s Hst Hn0 Hn) as (s' & Hrun & _ & Hcap & Hsz & Hlog).
  exists s'. repeat (split; [assumption|]).
  destruct (push_front_run mode val s Hst Hn0 Hn) as (b' & Hrun' & _ & Hlook).
  rewrite Hrun in Hrun'. injection Hrun' as ->. cbn.
  intros j Hj. rewrite Hlook. rewrite !decide_False by lia. reflexivity.
Qed.

(** X12. On a non-empty object [pop_back()] returns the last logical
    element and removes exactly it.  The slot it was in is left as the
    element type's move constructor leaves its source; no other slot
    changes. *)
Theorem pop_back_removes_last mode s :
  storage_ok s -> 1 <= _current_size s <= _capacity s ->
  exists y s',
    pop_back mode s = (Ok y, s') /\
    logical s = logical s' ++ [y] /\
    _current_size s' = _current_size s - 1 /\
    _capacity s' = _capacity s /\
    _buf s' = <[Z.to_nat (_current_size s - 1) := moved_from y]> (_buf s).
Proof.
  intros Hst Hn.
  destruct (pop_back_run mode s Hst Hn) as (y & Hy & Hrun).
  exists y. eexists. split; [exact Hrun|]. cbn.
  split; [|repeat split].
  unfold logical; cbn.
  rewrite take_insert_ge by lia.
  replace (Z.to_nat (_current_size s)) with (S (Z.to_nat (_current_size s - 1))) by lia.
  apply take_S_r. exact Hy.
Qed.

(** X13. On a non-empty object [pop_front()] returns the first logical
    element and removes exactly it, the others keeping their order. *)
Theorem pop_front_removes_first mode s :
  storage_ok s -> 1 <= _current_size s <= _capacity s ->
  exists y s',
    pop_front mode s = (Ok y, s') /\
    logical s = y :: logical s' /\
    _current_size s' = _current_size s - 1 /\
    _capacity s' = _capacity s.
Proof.
  intros Hst Hn.
  destruct (pop_front_logical mode s Hst Hn) as (y & s' & Hy & Hrun & _ & Hcap & Hsz & Hlog).
  exists y, s'. split; [exact Hrun|]. split; [|split; assumption].
  rewrite Hlog.
  destruct (logical s) as [|x l]; [discriminate Hy|].
  cbn in Hy. injection Hy as ->. reflexivity.
Qed.

(** X20. With [FIXED_VECTOR_NOEXCEPT] defined, a push of either kind on a
    full object returns normally, drops the value and changes nothing. *)
Theorem push_full_noexcept_discards (val : T) s :
  _current_size s = _capacity s ->
  push_back NoExcept val s = (Ok tt, s) /\
  push_front NoExcept val s = (Ok tt, s).
Proof.
  intros Hn. split.
  - apply push_back_full_noexcept; exact Hn.
  - apply push_front_full_noexcept; exact Hn.
Qed.

End EndOperations.

(** ** Copy assignment and element access *)

Section CopyAndAccess.

Context {T : Type} `{!MoveConstructible T}.
Implicit Types (s v : fixed_vector T).

(** The loop of the copy assignment from counter [i] for [c] passes. *)
Lemma assign_loop_run (v : fixed_vector T) (c : nat) : forall (i : nat) s,
  (i + c <= length (_buf s))%nat -> (i + c <= length (_buf v))%nat ->
  exists b',
    for_up c (Z.of_nat i)
      (fun i => bind (other_buf_read v i) (fun x => buf_write i x)) s =
      (Ok tt, mk_fixed_vector (_capacity s) (_current_size s) b') /\
    length b' = length (_buf s) /\
    forall j : nat,
      b' !! j = if decide (i <= j < i + c)%nat then _buf v !! j else _buf s !! j.
Proof.
  induction c as [|c IH]; intros i s Hs Hv.
  - exists (_buf s). split; [destruct s; reflexivity|]. split; [reflexivity|].
    intros j. rewrite decide_False by lia. reflexivity.
  - destruct (lookup_lt_is_Some_2 (_buf v) i) as [y Hy]; [lia|].
    cbn [for_up].
    assert (Hstep : bind (other_buf_read v (Z.of_nat i))
                      (fun x => buf_write (Z.of_nat i) x) s =
                    (Ok tt, mk_fixed_vector (_capacity s) (_current_size s)
                              (<[i := y]> (_buf s)))).
    { unfold bind, other_buf_read.
      rewrite (array_at_Ok (_buf v) _ y) by (rewrite ?Nat2Z.id; auto; lia).
      rewrite buf_write_Ok by lia. rewrite Nat2Z.id. reflexivity. }
    rewrite (bind_Ok _ _ _ _ tt Hstep).
    replace (Z.of_nat i + 1) with (Z.of_nat (S i)) by lia.
    set (s1 := mk_fixed_vector _ _ _).
    destruct (IH (S i) s1) as (b' & Hrun & Hlen' & Hlook);
      [subst s1; cbn; rewrite length_insert; lia | lia |].
    exists b'. subst s1; cbn [_buf _capacity _current_size] in *.
    split; [exact Hrun|]. split; [rewrite Hlen'; apply length_insert|].
    intros j. rewrite Hlook.
    destruct (decide (j = i)) as [->|Hj].
    + rewrite decide_False, decide_True by lia.
      rewrite list_lookup_insert_eq by lia. symmetry. exact Hy.
    + repeat case_decide; try lia; try reflexivity.
      apply list_lookup_insert_ne. lia.
Qed.

Lemma operator_assign_run v s :
  storage_ok s -> storage_ok v -> _capacity v = _capacity s ->
  operator_assign v s = (Ok tt, fixed_vector_copy v).
Proof.
  intros [[Hc1 Hc2] Hlen] [_ Hlenv] Hcap.
  - unfold operator_assign.
    erewrite bind_Ok by reflexivity.
    erewrite bind_Ok by reflexivity.
    cbn [_buf]. unfold for_lt. rewrite Z.sub_0_r, Nat2Z.id.
    set (s0 := mk_fixed_vector _ _ _).
    destruct (assign_loop_run v (length (_buf s)) 0 s0) as (b' & Hrun & Hlen' & Hlook);
      [subst s0; cbn; lia | lia |].
    change (Z.of_nat 0) with 0 in Hrun. rewrite Hrun.
    subst s0; cbn [_buf _capacity _current_size] in *.
    unfold fixed_vector_copy. f_equal. rewrite Hcap. f_equal.
    apply list_eq. intros j. rewrite Hlook.
    destruct (decide (j < length (_buf s))%nat).
    + rewrite decide_True by lia. reflexivity.
    + rewrite decide_False by lia.
      rewrite !lookup_ge_None_2 by lia. reflexivity.
Qed.


(** [operator[]] with an index below the size, in either build mode. *)
Lemma operator_index_in_range mode (pos : Z) s :
  Z.of_nat (length (_buf s)) = _capacity s ->
  0 <= pos < _current_size s -> _current_size s <= _capacity s ->
  _current_size s < SIZE_MODULUS ->
  operator_index mode pos s = (Ok pos, s).
Proof.
  intros Hlen Hpos Hcap Hmax.
  unfold operator_index, bind, get_size, get_capacity.
  rewrite (proj2 (Z.eqb_neq _ _)) by lia.
  rewrite wrap_small by lia.
  rewrite (proj2 (Z.ltb_ge _ _)) by lia. cbn [orb].
  rewrite (proj2 (Z.ltb_ge _ _)) by lia.
  unfold buf_ref. rewrite (proj2 (in_array_true _ _)) by lia. reflexivity.
Qed.

(** X14. For an index below the size, [v[pos] = x] returns in both build
    modes, replaces exactly the element at logical position [pos] and
    keeps the size; reading [v[pos]] afterwards gives [x]. *)
Theorem assign_at_replaces mode (pos : Z) (x : T) s :
  wf s -> 0 <= pos < _current_size s ->
  exists s',
    assign_at mode pos x s = (Ok tt, s') /\
    _current_size s' = _current_size s /\
    _buf s' = <[Z.to_nat pos := x]> (_buf s) /\
    logical s' = <[Z.to_nat pos := x]> (logical s) /\
    read_at mode pos s' = (Ok x, s').
Proof.
  intros [[[Hc1 Hc2] Hlen] [Hn0 Hn]] Hpos.
  eexists. split.
  { unfold assign_at.
    rewrite (bind_Ok _ _ _ _ _ (operator_index_in_range mode pos s Hlen Hpos Hn ltac:(lia))).
    apply buf_write_Ok. lia. }
  cbn. split; [reflexivity|]. split; [reflexivity|]. split.
  - unfold logical; cbn. apply take_insert_lt. lia.
  - unfold read_at.
    erewrite bind_Ok;
      [|apply operator_index_in_range; cbn; rewrite ?length_insert; lia].
    apply buf_read_Ok; [lia|]. cbn.
    apply list_lookup_insert_eq. lia.
Qed.

Lemma operator_index_noexcept_cases (pos : Z) s :
  storage_ok s -> 0 <= pos < SIZE_MODULUS -> 0 <= _current_size s < SIZE_MODULUS ->
  operator_index NoExcept pos s =
    (Ok (if decide (pos < _current_size s <= _capacity s) then pos else 0), s).
Proof.
  intros [[Hc1 Hc2] Hlen] Hpos Hn.
  destruct (decide (pos < _current_size s <= _capacity s)) as [Hin|Hout].
  - apply operator_index_in_range; lia.
  - unfold operator_index, bind, get_size, get_capacity, buf_ref.
    assert (H0 : in_array (_buf s) 0 = true) by (apply in_array_true; lia).
    destruct (Z.eqb_spec (_current_size s) 0) as [Hz|Hz]; cbn [orb].
    + rewrite H0. reflexivity.
    + rewrite wrap_small by lia.
      destruct (Z.ltb_spec (_current_size s - 1) pos); [rewrite H0; reflexivity|].
      rewrite (proj2 (Z.ltb_lt _ _)) by lia. rewrite H0. reflexivity.
Qed.

(** X15. With [FIXED_VECTOR_NOEXCEPT] defined, [operator[]] never throws:
    it returns slot [pos] when [pos < size <= capacity] and slot 0
    otherwise, so that [v[pos] = x] with a bad index overwrites slot 0. *)
Theorem operator_index_noexcept_fallback (pos : Z) (x : T) s :
  storage_ok s -> 0 <= pos < SIZE_MODULUS -> 0 <= _current_size s < SIZE_MODULUS ->
  operator_index NoExcept pos s =
    (Ok (if decide (pos < _current_size s <= _capacity s) then pos else 0), s) /\
  (~ (pos < _current_size s <= _capacity s) ->
     assign_at NoExcept pos x s =
       (Ok tt, mk_fixed_vector (_capacity s) (_current_size s)
                 (<[0%nat := x]> (_buf s)))).
Proof.
  intros Hst Hpos Hn.
  pose proof (operator_index_noexcept_cases pos s Hst Hpos Hn) as Hidx.
  destruct Hst as [[Hc1 Hc2] Hlen].
  split; [exact Hidx|].
  intros Hout. unfold assign_at. rewrite (bind_Ok _ _ _ _ _ Hidx).
  rewrite decide_False by exact Hout.
  apply buf_write_Ok. lia.
Qed.

End CopyAndAccess.

(** ** Exceptions *)

Section Exceptions.

Context {T : Type} `{!MoveConstructible T}.
Implicit Types (s : fixed_vector T).

Lemma no_throw_bind {A B : Type} (m : M A) (f : A -> M B) :
  no_throw (T:=T) m -> (forall a, no_throw (f a)) -> no_throw (bind m f).
Proof.
  intros Hm Hf s e s' Hrun. unfold bind in Hrun.
  destruct (m s) as [[a|e0|i] s1] eqn:Hms.
  - exact (Hf a s1 e s' Hrun).
  - exact (Hm s e0 s1 Hms).
  - discriminate Hrun.
Qed.

Lemma no_throw_ret {A : Type} (a : A) : no_throw (T:=T) (ret a).
Proof. intros s e s' H. discriminate H. Qed.

Lemma no_throw_get_size : no_throw (T:=T) get_size.
Proof. intros s e s' H. discriminate H. Qed.

Lemma no_throw_get_capacity : no_throw (T:=T) get_capacity.
Proof. intros s e s' H. discriminate H. Qed.

Lemma no_throw_buf_size : no_throw (T:=T) buf_size.
Proof. intros s e s' H. discriminate H. Qed.

Lemma no_throw_set_size n : no_throw (T:=T) (set_size n).
Proof. intros s e s' H. discriminate H. Qed.

Lemma array_at_no_throw (b : list T) i e : array_at b i <> Throw e.
Proof.
  unfold array_at. destruct (in_array b i); [|discriminate].
  destruct (b !! Z.to_nat i); discriminate.
Qed.

Lemma no_throw_buf_read i : no_throw (T:=T) (buf_read i).
Proof.
  intros s e s' H. unfold buf_read in H. injection H as H _.
  exact (array_at_no_throw _ _ _ H).
Qed.

Lemma no_throw_other_buf_read (v : fixed_vector T) i : no_throw (other_buf_read v i).
Proof.
  intros s e s' H. unfold other_buf_read in H. injection H as H _.
  exact (array_at_no_throw _ _ _ H).
Qed.

Lemma no_throw_buf_write i (x : T) : no_throw (buf_write i x).
Proof.
  intros s e s' H. unfold buf_write in H.
  destruct (in_array (_buf s) i); discriminate H.
Qed.

Lemma no_throw_buf_ref i : no_throw (T:=T) (buf_ref i).
Proof.
  intros s e s' H. unfold buf_ref in H.
  destruct (in_array (_buf s) i); discriminate H.
Qed.

Lemma no_throw_for_up (body : Z -> M unit) (c : nat) : forall i,
  (forall j, no_throw (T:=T) (body j)) -> no_throw (for_up c i body).
Proof.
  induction c as [|c IH]; intros i Hbody; cbn [for_up].
  - apply no_throw_ret.
  - apply no_throw_bind; [apply Hbody|]. intros _. apply IH. exact Hbody.
Qed.

Lemma no_throw_for_down (body : Z -> M unit) (n : nat) :
  (forall j, no_throw (T:=T) (body j)) -> no_throw (for_down n body).
Proof.
  intros Hbody. induction n as [|n IH]; cbn [for_down].
  - apply no_throw_ret.
  - apply no_throw_bind; [apply Hbody|]. intros _. exact IH.
Qed.

Ltac no_throw_step :=
  first
    [ apply no_throw_ret | apply no_throw_get_size | apply no_throw_get_capacity
    | apply no_throw_buf_size | apply no_throw_set_size | apply no_throw_buf_read
    | apply no_throw_other_buf_read | apply no_throw_buf_write | apply no_throw_buf_ref
    | apply no_throw_for_up; intros | apply no_throw_for_down; intros
    | apply no_throw_bind; [|intros]
    | match goal with
      | |- no_throw (if ?b then _ else _) => destruct b
      end ].

Lemma no_throw_unsafe_right_shift_by_one : no_throw (T:=T) unsafe_right_shift_by_one.
Proof. unfold unsafe_right_shift_by_one. repeat no_throw_step. Qed.

Lemma no_throw_unsafe_left_shift_by_one : no_throw (T:=T) unsafe_left_shift_by_one.
Proof. unfold unsafe_left_shift_by_one, for_lt. repeat no_throw_step. Qed.

Lemma no_throw_reverse : no_throw (T:=T) reverse.
Proof. unfold reverse, for_le, reverse_step. repeat no_throw_step. Qed.

Lemma no_throw_operator_assign (v : fixed_vector T) : no_throw (operator_assign v).
Proof. unfold operator_assign, for_lt. repeat no_throw_step. Qed.

Lemma no_throw_run_operation_noexcept (o : @operation T) :
  no_throw (run_operation NoExcept o).
Proof.
  destruct o as [val|val| | | | |pos|v]; cbn [run_operation].
  - unfold push_back. repeat no_throw_step.
  - unfold push_front. repeat no_throw_step.
  - unfold pop_back. repeat no_throw_step.
  - unfold pop_front. repeat no_throw_step.
  - unfold clear. repeat no_throw_step.
  - apply no_throw_reverse.
  - unfold operator_index. repeat no_throw_step.
  - apply no_throw_operator_assign.
Qed.

(** X16. With [FIXED_VECTOR_NOEXCEPT] defined, no public operation ends
    by an exception, on any object. *)
Theorem noexcept_never_throws (o : @operation T) s :
  is_throw (fst (run_operation NoExcept o s)) = false.
Proof.
  pose proof (no_throw_run_operation_noexcept o s) as H.
  destruct (run_operation NoExcept o s) as [[a|e|i] s']; [reflexivity| |reflexivity].
  exfalso. exact (H e s' eq_refl).
Qed.

Lemma bind_ret_Throw {A : Type} (m : M A) s e s' :
  bind m (fun _ => ret tt) s = (Throw e, s') -> m s = (Throw e, s').
Proof.
  unfold bind, ret. destruct (m s) as [[a|e0|i] s0]; intros H;
    [discriminate H| |discriminate H].
  injection H as -> ->. reflexivity.
Qed.

Lemma push_back_checked_unfold (val : T) s :
  push_back Checked val s =
    if _current_size s =? _capacity s then (Throw CapacityExceeded, s)
    else bind (buf_write (_current_size s) val)
           (fun _ => set_size (wrap (_current_size s + 1))) s.
Proof.
  unfold push_back, bind at 1 2, get_size, get_capacity.
  destruct (_current_size s =? _capacity s); reflexivity.
Qed.

Lemma push_front_checked_unfold (val : T) s :
  push_front Checked val s =
    if _current_size s =? _capacity s then (Throw CapacityExceeded, s)
    else bind unsafe_right_shift_by_one (fun _ => buf_write 0 val) s.
Proof.
  unfold push_front, bind at 1 2, get_size, get_capacity.
  destruct (_current_size s =? _capacity s); reflexivity.
Qed.

Lemma pop_back_checked_unfold s :
  pop_back Checked s =
    if _current_size s =? 0 then (Throw EmptyContainer, s)
    else bind (set_size (wrap (_current_size s - 1)))
           (fun _ => bind get_size (fun n' => buf_move n')) s.
Proof.
  unfold pop_back, bind at 1, get_size.
  destruct (_current_size s =? 0); reflexivity.
Qed.

Lemma pop_front_checked_unfold s :
  pop_front Checked s =
    if _current_size s =? 0 then (Throw EmptyContainer, s)
    else bind (buf_read 0)
           (fun val => bind unsafe_left_shift_by_one (fun _ => ret val)) s.
Proof.
  unfold pop_front, bind at 1 2, get_size.
  destruct (_current_size s =? 0); reflexivity.
Qed.

(** X17. In checked mode an operation that throws has changed nothing:
    the object is as before the call.  A push throws only the capacity
    error and only on a full object, a pop only the empty-container error
    and only on an empty one, and nothing but pushes, pops and
    [operator[]] throws. *)
Theorem checked_throw_leaves_object (o : @operation T) s e s' :
  run_operation Checked o s = (Throw e, s') ->
  s' = s /\
  ((is_push o = true /\ _current_size s = _capacity s /\ e = CapacityExceeded) \/
   (is_pop o = true /\ _current_size s = 0 /\ e = EmptyContainer) \/
   (exists pos, o = OpIndex pos /\ (e = IndexOutOfRange \/ e = InvariantViolation))).
Proof.
  intros Hrun.
  destruct o as [val|val| | | | |pos|v]; cbn [run_operation] in Hrun.
  - rewrite push_back_checked_unfold in Hrun.
    destruct (Z.eqb_spec (_current_size s) (_capacity s)) as [Heq|Hne].
    + injection Hrun as <- <-. split; [reflexivity|]. left. auto.
    + exfalso. revert Hrun. apply no_throw_bind; [apply no_throw_buf_write|].
      intros _. apply no_throw_set_size.
  - rewrite push_front_checked_unfold in Hrun.
    destruct (Z.eqb_spec (_current_size s) (_capacity s)) as [Heq|Hne].
    + injection Hrun as <- <-. split; [reflexivity|]. left. auto.
    + exfalso. revert Hrun.
      apply no_throw_bind; [apply no_throw_unsafe_right_shift_by_one|].
      intros _. apply no_throw_buf_write.
  - apply bind_ret_Throw in Hrun. rewrite pop_back_checked_unfold in Hrun.
    destruct (Z.eqb_spec (_current_size s) 0) as [Heq|Hne].
    + injection Hrun as <- <-. split; [reflexivity|]. right. left. auto.
    + exfalso. revert Hrun. repeat no_throw_step.
  - apply bind_ret_Throw in Hrun. rewrite pop_front_checked_unfold in Hrun.
    destruct (Z.eqb_spec (_current_size s) 0) as [Heq|Hne].
    + injection Hrun as <- <-. split; [reflexivity|]. right. left. auto.
    + exfalso. revert Hrun. repeat no_throw_step.
  - discriminate Hrun.
  - exfalso. exact (no_throw_reverse _ _ _ Hrun).
  - apply bind_ret_Throw in Hrun.
    pose proof (operator_index_state Checked pos s) as Hst.
    rewrite Hrun in Hst. cbn in Hst. split; [exact Hst|].
    right. right. exists pos. split; [reflexivity|].
    unfold operator_index, bind, get_size, get_capacity, throw, buf_ref in Hrun.
    destruct ((_current_size s =? 0) || (wrap (_current_size s - 1) <? pos)).
    + injection Hrun as <- _. left. reflexivity.
    + destruct (_capacity s <? _current_size s).
      * injection Hrun as <- _. right. reflexivity.
      * destruct (in_array (_buf s) pos); discriminate Hrun.
  - exfalso. exact (no_throw_operator_assign _ _ _ _ Hrun).
Qed.

End Exceptions.

(** ** Reversal, again *)

Section ReverseTwice.

Context {T : Type} `{!MoveConstructible T}.
Implicit Types (s : fixed_vector T).

(** Odd sizes, slot by slot. *)
Lemma reverse_odd_slots s (k : nat) :
  storage_ok s -> _current_size s = Z.of_nat (2 * k + 1) ->
  _current_size s <= _capacity s ->
  exists b',
    reverse s = (Ok tt, mk_fixed_vector (_capacity s) (_current_size s) b') /\
    length b' = length (_buf s) /\
    forall j : nat,
      b' !! j = if decide (j < 2 * k + 1)%nat
                then _buf s !! (2 * k - j)%nat else _buf s !! j.
Proof.
  intros [[Hc1 Hc2] Hlen] Hn Hcap.
  destruct (reverse_loop_run (2 * k + 1) (k + 1) 0 s Hn)
    as (b' & Hrun & Hlen' & Hlook); [lia|lia|lia|].
  exists b'. split.
  { unfold reverse. rewrite (bind_Ok _ _ s s (_current_size s)) by reflexivity.
    unfold for_le.
    replace (Z.to_nat (_current_size s / 2 + 1 - 0)) with (k + 1)%nat; [exact Hrun|].
    replace (_current_size s / 2) with (Z.of_nat k); [lia|].
    apply Z.div_unique with (r := 1); lia. }
  split; [exact Hlen'|].
  intros j. rewrite Hlook.
  repeat case_decide; try lia; try reflexivity. f_equal. lia.
Qed.

Lemma reverse_nonempty_returns s :
  storage_ok s -> 1 <= _current_size s <= _capacity s ->
  exists b',
    reverse s = (Ok tt, mk_fixed_vector (_capacity s) (_current_size s) b') /\
    length b' = length (_buf s).
Proof.
  intros Hst Hn.
  destruct (Nat.Even_or_Odd (Z.to_nat (_current_size s))) as [[k Hk]|[k Hk]].
  - destruct (reverse_even s k Hst) as (b' & Hrun & Hlen & _); [lia|lia|lia|].
    exists b'. auto.
  - destruct (reverse_odd_slots s k Hst) as (b' & Hrun & Hlen & _); [lia|lia|].
    exists b'. auto.
Qed.

(** X22. On every non-empty well-formed object two calls of [reverse]
    in a row both return and leave the object exactly as it was, every
    slot included; this holds for even sizes too, where one call does not
    reverse the two middle elements. *)
Theorem reverse_twice s :
  wf s -> 1 <= _current_size s ->
  bind reverse (fun _ => reverse) s = (Ok tt, s).
Proof.
  intros [Hst [Hn0 Hn]] H1.
  assert (Hst' := Hst). destruct Hst' as [[Hc1 Hc2] Hlen].
  assert (Hfinal : forall b2 : list T,
            length b2 = length (_buf s) ->
            (forall j : nat, b2 !! j = _buf s !! j) ->
            (Ok tt, mk_fixed_vector (_capacity s) (_current_size s) b2) = (Ok tt, s)).
  { intros b2 Hl Hj. f_equal. destruct s as [c n b]; cbn in *.
    f_equal. apply list_eq. exact Hj. }
  destruct (Nat.Even_or_Odd (Z.to_nat (_current_size s))) as [[k Hk]|[k Hk]].
  - destruct (reverse_even s k Hst) as (b1 & Hrun1 & Hlen1 & Hlook1); [lia|lia|lia|].
    set (s1 := mk_fixed_vector (_capacity s) (_current_size s) b1) in *.
    destruct (reverse_even s1 k) as (b2 & Hrun2 & Hlen2 & Hlook2);
      [split; subst s1; cbn; lia | subst s1; cbn; lia | lia | subst s1; cbn; lia |].
    rewrite (bind_Ok _ _ _ _ tt Hrun1), Hrun2.
    subst s1; cbn [_buf _capacity _current_size] in *.
    apply Hfinal; [congruence|].
    intros j. rewrite Hlook2.
    case_decide as Hj; [|rewrite Hlook1, decide_False by exact Hj; reflexivity].
    rewrite Hlook1, decide_True by lia. f_equal. lia.
  - destruct (reverse_odd_slots s k Hst) as (b1 & Hrun1 & Hlen1 & Hlook1); [lia|lia|].
    set (s1 := mk_fixed_vector (_capacity s) (_current_size s) b1) in *.
    destruct (reverse_odd_slots s1 k) as (b2 & Hrun2 & Hlen2 & Hlook2);
      [split; subst s1; cbn; lia | subst s1; cbn; lia | subst s1; cbn; lia |].
    rewrite (bind_Ok _ _ _ _ tt Hrun1), Hrun2.
    subst s1; cbn [_buf _capacity _current_size] in *.
    apply Hfinal; [congruence|].
    intros j. rewrite Hlook2.
    case_decide as Hj; [|rewrite Hlook1, decide_False by exact Hj; reflexivity].
    rewrite Hlook1, decide_True by lia. f_equal. lia.
Qed.

End ReverseTwice.

(** ** Accesses outside the array *)

Section Faults.

Context {T : Type} `{!MoveConstructible T}.
Implicit Types (s : fixed_vector T).

Lemma fst_bind_ret_Ok {A : Type} (m : M A) s s' a :
  m s = (Ok a, s') -> fst (bind m (fun _ => ret tt) s) = Ok tt.
Proof. intros H. rewrite (bind_Ok _ _ _ _ _ H). reflexivity. Qed.

Lemma fst_bind_ret_Throw {A : Type} (m : M A) s s' e :
  m s = (Throw e, s') -> fst (bind m (fun _ => ret tt) s) = Throw e.
Proof. intros H. rewrite (bind_Throw _ _ _ _ _ H). reflexivity. Qed.

(** X18. On a well-formed object, in either build mode, a public
    operation reaches outside the array in exactly two cases:
    [push_front] with exactly one free slot (slot [CAPACITY]) and
    [reverse] on an empty object (slot [2^64 - 1]). *)
Theorem fault_exactly_in_two_cases mode (o : @operation T) s (i : Z) :
  wf s ->
  (forall v, o = OpAssign v -> assign_source_ok s v) ->
  (forall pos, o = OpIndex pos -> 0 <= pos < SIZE_MODULUS) ->
  fst (run_operation mode o s) = Fault i <->
  ((exists val, o = OpPushFront val) /\
     _current_size s + 1 = _capacity s /\ i = _capacity s) \/
  (o = OpReverse /\ _current_size s = 0 /\ i = SIZE_MAX).
Proof.
  intros Hwf Hsrc Hpos.
  assert (Hwf' := Hwf). destruct Hwf' as [Hst [Hn0 Hn]].
  assert (Hst' := Hst). destruct Hst' as [[Hc1 Hc2] Hlen].
  assert (Hbuf : exists x rest, _buf s = x :: rest).
  { destruct (_buf s) as [|x rest]; [cbn in Hlen; lia|eauto]. }
  destruct Hbuf as (x0 & rest & Hbuf).
  split.
  - intros Hf.
    destruct o as [val|val| | | | |pos|v]; cbn [run_operation] in Hf.
    + exfalso. destruct (decide (_current_size s = _capacity s)) as [Heq|Hne].
      * destruct mode;
          [rewrite push_back_full_checked in Hf by exact Heq
          |rewrite push_back_full_noexcept in Hf by exact Heq]; discriminate Hf.
      * rewrite push_back_run in Hf by (auto; lia). discriminate Hf.
    + destruct (decide (_current_size s = _capacity s)) as [Heq|Hne].
      * exfalso. destruct mode;
          [rewrite push_front_full_checked in Hf by exact Heq
          |rewrite push_front_full_noexcept in Hf by exact Heq]; discriminate Hf.
      * destruct (decide (_current_size s + 1 = _capacity s)) as [Hlast|Hfree].
        -- rewrite push_front_fault in Hf by assumption. cbn in Hf.
           injection Hf as <-. left. eauto.
        -- exfalso.
           destruct (push_front_logical mode val s Hst) as (s' & Hrun & _); [lia|lia|].
           rewrite Hrun in Hf. discriminate Hf.
    + exfalso. destruct (decide (_current_size s = 0)) as [Heq|Hne].
      * destruct mode.
        -- rewrite (fst_bind_ret_Throw _ _ _ _ (pop_back_checked_empty s Heq)) in Hf.
           discriminate Hf.
        -- rewrite (fst_bind_ret_Ok _ _ _ _ (pop_back_noexcept_empty s x0 rest Heq Hbuf)) in Hf.
           discriminate Hf.
      * destruct (pop_back_run mode s Hst) as (y & _ & Hrun); [lia|].
        rewrite (fst_bind_ret_Ok _ _ _ _ Hrun) in Hf. discriminate Hf.
    + exfalso. destruct (decide (_current_size s = 0)) as [Heq|Hne].
      * destruct mode.
        -- rewrite (fst_bind_ret_Throw _ _ _ _ (pop_front_checked_empty s Heq)) in Hf.
           discriminate Hf.
        -- rewrite (fst_bind_ret_Ok _ _ _ _ (pop_front_noexcept_empty s x0 rest Heq Hbuf)) in Hf.
           discriminate Hf.
      * destruct (pop_front_run mode s Hst) as (y & b' & _ & Hrun & _); [lia|].
        rewrite (fst_bind_ret_Ok _ _ _ _ Hrun) in Hf. discriminate Hf.
    + discriminate Hf.
    + destruct (decide (_current_size s = 0)) as [Heq|Hne].
      * rewrite reverse_empty in Hf by assumption. cbn in Hf.
        injection Hf as <-. right. auto.
      * exfalso. destruct (reverse_nonempty_returns s Hst) as (b' & Hrun & _); [lia|].
        rewrite Hrun in Hf. discriminate Hf.
    + exfalso. specialize (Hpos pos eq_refl).
      destruct mode.
      * pose proof (operator_index_checked_cases s pos Hpos ltac:(lia) Hlen) as Hcases.
        repeat case_decide;
          first [ rewrite (fst_bind_ret_Throw _ _ _ _ Hcases) in Hf
                | rewrite (fst_bind_ret_Ok _ _ _ _ Hcases) in Hf ];
          discriminate Hf.
      * rewrite (fst_bind_ret_Ok _ _ _ _
                   (operator_index_noexcept_cases pos s Hst Hpos ltac:(lia))) in Hf.
        discriminate Hf.
    + exfalso. destruct (Hsrc v eq_refl) as [[Hstv _] Hcap].
      rewrite operator_assign_run in Hf by assumption. discriminate Hf.
  - intros [[[val ->] [Hlast ->]]|[-> [Hz ->]]]; cbn [run_operation].
    + rewrite push_front_fault by assumption. reflexivity.
    + rewrite reverse_empty by assumption. reflexivity.
Qed.

End Faults.

(** ** The object as a double-ended queue *)

Section Deque.

Context {T : Type} `{!MoveConstructible T}.
Implicit Types (s : fixed_vector T).

Lemma bind_Ok_inv {A B : Type} (m : M A) (f : A -> M B) s s' (b : B) :
  bind (T:=T) m f s = (Ok b, s') ->
  exists a s1, m s = (Ok a, s1) /\ f a s1 = (Ok b, s').
Proof.
  unfold bind. destruct (m s) as [[a|e|i] s1]; intros H; try discriminate H.
  exists a, s1. auto.
Qed.

(** One returning call of a push, a pop or [clear] in checked mode. *)
Lemma deque_step_refines (o : @operation T) s s' :
  wf s -> is_deque_op o = true ->
  run_operation Checked o s = (Ok tt, s') ->
  wf s' /\ _capacity s' = _capacity s /\ logical s' = list_step (logical s) o.
Proof.
  intros Hwf Hop Hrun.
  assert (Hwf' := Hwf). destruct Hwf' as [Hst [Hn0 Hn]].
  assert (Hst' := Hst). destruct Hst' as [[Hc1 Hc2] Hlen].
  destruct o as [val|val| | | | |pos|v]; try discriminate Hop;
    cbn [run_operation list_step] in *.
  - destruct (decide (_current_size s = _capacity s)) as [Heq|Hne].
    { rewrite push_back_full_checked in Hrun by exact Heq. discriminate Hrun. }
    destruct (push_back_logical Checked val s Hst) as (s1 & Hrun1 & Hst1 & Hcap1 & Hsz1 & Hlog1);
      [lia|].
    rewrite Hrun1 in Hrun. injection Hrun as <-.
    split; [split; [exact Hst1|split; lia]|]. auto.
  - destruct (decide (_current_size s = _capacity s)) as [Heq|Hne].
    { rewrite push_front_full_checked in Hrun by exact Heq. discriminate Hrun. }
    destruct (decide (_current_size s + 1 = _capacity s)) as [Hlast|Hfree].
    { rewrite push_front_fault in Hrun by assumption. discriminate Hrun. }
    destruct (push_front_logical Checked val s Hst) as (s1 & Hrun1 & Hst1 & Hcap1 & Hsz1 & Hlog1);
      [lia|lia|].
    rewrite Hrun1 in Hrun. injection Hrun as <-.
    split; [split; [exact Hst1|split; lia]|]. auto.
  - destruct (decide (_current_size s = 0)) as [Heq|Hne].
    { rewrite (bind_Throw _ _ _ _ _ (pop_back_checked_empty s Heq)) in Hrun.
      discriminate Hrun. }
    destruct (pop_back_run Checked s Hst) as (y & _ & Hrun1); [lia|].
    rewrite (bind_Ok _ _ _ _ _ Hrun1) in Hrun. injection Hrun as <-.
    split; [repeat split; cbn; rewrite ?length_insert; lia|]. split; [reflexivity|].
    unfold logical; cbn. rewrite take_insert_ge by lia.
    rewrite length_take, take_take.
    f_equal. lia.
  - destruct (decide (_current_size s = 0)) as [Heq|Hne].
    { rewrite (bind_Throw _ _ _ _ _ (pop_front_checked_empty s Heq)) in Hrun.
      discriminate Hrun. }
    destruct (pop_front_logical Checked s Hst)
      as (y & s1 & _ & Hrun1 & Hst1 & Hcap1 & Hsz1 & Hlog1); [lia|].
    rewrite (bind_Ok _ _ _ _ _ Hrun1) in Hrun. injection Hrun as <-.
    split; [split; [exact Hst1|split; lia]|]. auto.
  - injection Hrun as <-. split; [repeat split; cbn; lia|]. auto.
Qed.

(** X19. In checked mode the object behaves as a double-ended queue on
    its logical sequence: after any run of pushes, pops and [clear] in
    which every call returned, the object is well-formed, its logical
    sequence is the one a plain list reaches by the same steps, and its
    size is the net number of elements added. *)
Theorem deque_run_refines (os : list (@operation T)) : forall s s',
  wf s -> forallb is_deque_op os = true ->
  run_operations Checked os s = (Ok tt, s') ->
  wf s' /\
  logical s' = foldl list_step (logical s) os /\
  size s' = Z.of_nat (length (foldl list_step (logical s) os)).
Proof.
  induction os as [|o os IH]; intros s s' Hwf Hops Hrun.
  - cbn in Hrun. injection Hrun as <-. cbn.
    split; [exact Hwf|]. split; [reflexivity|].
    symmetry. apply logical_length. exact Hwf.
  - cbn [forallb] in Hops. apply andb_true_iff in Hops as [Ho Hos].
    cbn [run_operations] in Hrun.
    apply bind_Ok_inv in Hrun as ([] & s1 & Hrun1 & Hrun2).
    destruct (deque_step_refines o s s1 Hwf Ho Hrun1) as (Hwf1 & _ & Hlog1).
    destruct (IH s1 s' Hwf1 Hos Hrun2) as (Hwf' & Hlog' & Hsz').
    cbn [foldl]. rewrite <- Hlog1. auto.
Qed.

End Deque.

(** ** Iteration *)

Section Iteration.

Context {T : Type} `{!MoveConstructible T}.
Implicit Types (s : fixed_vector T).

(** The traversal from offset [i], with [c] elements left before [last]. *)
Lemma traverse_run s (last : Z) (c : nat) : forall (i fuel : nat),
  Z.of_nat (i + c) = last -> (i + c <= length (_buf s))%nat -> (c < fuel)%nat ->
  traverse fuel (mk_iterator (Z.of_nat i)) (mk_iterator last) s =
    Some (Ok (take c (drop i (_buf s)))).
Proof.
  induction c as [|c IH]; intros i fuel Hlast Hlen Hfuel;
    (destruct fuel as [|fuel]; [lia|]); cbn [traverse].
  - unfold iterator_ne; cbn [_ptr].
    rewrite (proj2 (Z.eqb_eq _ _)) by lia. reflexivity.
  - unfold iterator_ne; cbn [_ptr].
    rewrite (proj2 (Z.eqb_neq _ _)) by lia. cbn [negb].
    destruct (lookup_lt_is_Some_2 (_buf s) i) as [x Hx]; [lia|].
    unfold iterator_deref; cbn [_ptr].
    rewrite (array_at_Ok _ _ x) by (rewrite ?Nat2Z.id; auto; lia).
    cbn [iterator_pre_increment snd _ptr].
    replace (Z.of_nat i + 1) with (Z.of_nat (S i)) by lia.
    rewrite (IH (S i) fuel) by lia.
    rewrite (drop_S _ x i Hx). reflexivity.
Qed.

(** X21. On a well-formed object [end()] exists, lies [size()] after
    [begin()], and the loop from [begin()] to [end()] with [!=], [++] and
    [*] visits exactly the logical sequence, in order, and stops. *)
Theorem iteration_visits_logical s (fuel : nat) :
  wf s -> (Z.to_nat (_current_size s) < fuel)%nat ->
  exists last,
    end_ s = Ok last /\
    iterator_distance last (begin s) = size s /\
    traverse fuel (begin s) last s = Some (Ok (logical s)).
Proof.
  intros [[[Hc1 Hc2] Hlen] [Hn0 Hn]] Hfuel.
  exists (mk_iterator (_current_size s)). split; [|split].
  - unfold end_.
    rewrite (proj2 (Z.leb_le _ _)) by lia.
    rewrite (proj2 (Z.leb_le _ _)) by lia. reflexivity.
  - unfold iterator_distance, begin, size; cbn. lia.
  - unfold begin. change 0 with (Z.of_nat 0).
    rewrite (traverse_run s _ (Z.to_nat (_current_size s))) by lia.
    rewrite drop_0. reflexivity.
Qed.

Lemma post_increment_iter (n : nat) (it : iterator) :
  _ptr (Nat.iter n (fun it => snd (iterator_post_increment it)) it) = _ptr it + Z.of_nat n.
Proof.
  induction n as [|n IH]; [cbn; lia|].
  rewrite Nat.iter_succ. cbn [iterator_post_increment snd _ptr] in *. rewrite IH. lia.
Qed.

(** X23. A mutable iterator moved [i < size] times from [begin()] by
    [it++] is not [end()], reads logical element [i], and a store through
    it replaces exactly that element. *)
Theorem iterator_store_replaces s (i : nat) (x : T) :
  wf s -> Z.of_nat i < _current_size s ->
  let it := Nat.iter i (fun it => snd (iterator_post_increment it)) (begin s) in
  exists y s',
    iterator_eq it (mk_iterator (_current_size s)) = false /\
    logical s !! i = Some y /\ iterator_deref it s = Ok y /\
    iterator_store it x s = (Ok tt, s') /\
    _current_size s' = _current_size s /\
    logical s' = <[i := x]> (logical s) /\
    iterator_deref it s' = Ok x.
Proof.
  intros [[[Hc1 Hc2] Hlen] [Hn0 Hn]] Hi it.
  assert (Hptr : _ptr it = Z.of_nat i).
  { subst it. rewrite post_increment_iter. cbn. lia. }
  destruct (lookup_lt_is_Some_2 (_buf s) i) as [y Hy]; [lia|].
  exists y. eexists. split; [|split; [|split; [|split]]].
  - unfold iterator_eq. rewrite Hptr. cbn. apply Z.eqb_neq. lia.
  - unfold logical. rewrite lookup_take_lt by lia. exact Hy.
  - unfold iterator_deref. rewrite Hptr. apply array_at_Ok; [lia|].
    rewrite Nat2Z.id. exact Hy.
  - unfold iterator_store. rewrite Hptr. apply buf_write_Ok. lia.
  - cbn. rewrite Nat2Z.id. split; [reflexivity|]. split.
    + unfold logical; cbn. apply take_insert_lt. lia.
    + unfold iterator_deref. rewrite Hptr. cbn. apply array_at_Ok; [lia|].
      rewrite Nat2Z.id. apply list_lookup_insert_eq. lia.
Qed.

End Iteration.

(** ** Further behaviour at concrete objects *)

Ltac solve_instance :=
  repeat split;
  first [ reflexivity | lia | cbn; lia
        | vm_compute; first [reflexivity | lia | intro; discriminate] ].

(** X6 at [fixed_vector<int, 4>{1, 2}]. *)
Lemma fixed_vector_of_init_logical_witness :
  exists s,
    fixed_vector_of_init 4 0 [1; 2] = Ok s /\
    wf s /\ capacity s = 4 /\ size s = 2 /\
    logical s = [1; 2] /\ drop 2 (_buf s) = [0; 0].
Proof.
  apply (proj1 (fixed_vector_of_init_logical 4 0 [1; 2] ltac:(solve_instance)));
    solve_instance.
Defined.

(** X7 at the array [{1, 2, 3}]. *)
Lemma fixed_vector_of_array_full_witness :
  wf (fixed_vector_of_array [1; 2; 3]) /\
  size (fixed_vector_of_array [1; 2; 3]) = capacity (fixed_vector_of_array [1; 2; 3]) /\
  logical (fixed_vector_of_array [1; 2; 3]) = [1; 2; 3] /\
  forall val,
    push_back Checked val (fixed_vector_of_array [1; 2; 3]) =
      (Throw CapacityExceeded, fixed_vector_of_array [1; 2; 3]) /\
    push_front Checked val (fixed_vector_of_array [1; 2; 3]) =
      (Throw CapacityExceeded, fixed_vector_of_array [1; 2; 3]).
Proof.
  apply (fixed_vector_of_array_full [1; 2; 3]); solve_instance.
Defined.


(** X9: clearing [{1, 2, 3}] and comparing with a default-constructed
    vector. *)
Lemma clear_empties_witness :
  exists s',
    clear (mk_fixed_vector 4 3 [1; 2; 3; 0]) = (Ok tt, s') /\
    _buf s' = [1; 2; 3; 0] /\ _capacity s' = 4 /\
    logical s' = [] /\
    operator_eq Z.eqb (fixed_vector_default 4 0) s' = (Ok true, s') /\
    pop_back Checked s' = (Throw EmptyContainer, s').
Proof.
  apply (clear_empties Z.eqb (mk_fixed_vector 4 3 [1; 2; 3; 0]) (fixed_vector_default 4 0));
    solve_instance.
Defined.

(** X10 at [{1, 2}], capacity 4. *)
Lemma push_back_appends_witness :
  exists s',
    push_back Checked 7 (mk_fixed_vector 4 2 [1; 2; 0; 0]) = (Ok tt, s') /\
    _capacity s' = 4 /\ _current_size s' = 3 /\
    logical s' = [1; 2; 7] /\
    forall j : nat, j <> 2%nat -> _buf s' !! j = [1; 2; 0; 0] !! j.
Proof.
  apply (push_back_appends Checked 7 (mk_fixed_vector 4 2 [1; 2; 0; 0])); solve_instance.
Defined.

(** X11 at [{1, 2}], capacity 5. *)
Lemma push_front_prepends_witness :
  exists s',
    push_front Checked 7 (mk_fixed_vector 5 2 [1; 2; 0; 0; 9]) = (Ok tt, s') /\
    _capacity s' = 5 /\ _current_size s' = 3 /\
    logical s' = [7; 1; 2] /\
    forall j : nat, (3 < j)%nat -> _buf s' !! j = [1; 2; 0; 0; 9] !! j.
Proof.
  apply (push_front_prepends Checked 7 (mk_fixed_vector 5 2 [1; 2; 0; 0; 9]));
    solve_instance.
Defined.

(** X12 at [{1, 2, 3}], capacity 4. *)
Lemma pop_back_removes_last_witness :
  exists y s',
    pop_back Checked (mk_fixed_vector 4 3 [1; 2; 3; 0]) = (Ok y, s') /\
    [1; 2; 3] = logical s' ++ [y] /\
    _current_size s' = 2 /\ _capacity s' = 4 /\
    _buf s' = <[2%nat := moved_from y]> [1; 2; 3; 0].
Proof.
  apply (pop_back_removes_last Checked (mk_fixed_vector 4 3 [1; 2; 3; 0])); solve_instance.
Defined.

(** [pop_back] on a vector of strings whose move constructor leaves the
    source empty. *)
Example pop_back_moves_string :
  @pop_back string (fun _ => EmptyString) Checked
    (mk_fixed_vector 2 2 ["a"%string; "b"%string])
  = (Ok ("b"%string),
     mk_fixed_vector 2 1 ["a"%string; EmptyString]).
Proof. vm_compute. reflexivity. Qed.

(** X13 at [{1, 2, 3}], capacity 4. *)
Lemma pop_front_removes_first_witness :
  exists y s',
    pop_front Checked (mk_fixed_vector 4 3 [1; 2; 3; 0]) = (Ok y, s') /\
    [1; 2; 3] = y :: logical s' /\
    _current_size s' = 2 /\ _capacity s' = 4.
Proof.
  apply (pop_front_removes_first Checked (mk_fixed_vector 4 3 [1; 2; 3; 0]));
    solve_instance.
Defined.

(** X14: [v[1] = 7] on [{1, 2, 3}]. *)
Lemma assign_at_replaces_witness :
  exists s',
    assign_at Checked 1 7 (mk_fixed_vector 4 3 [1; 2; 3; 0]) = (Ok tt, s') /\
    _current_size s' = 3 /\
    _buf s' = [1; 7; 3; 0] /\
    logical s' = [1; 7; 3] /\
    read_at Checked 1 s' = (Ok 7, s').
Proof.
  apply (assign_at_replaces Checked 1 7 (mk_fixed_vector 4 3 [1; 2; 3; 0]));
    solve_instance.
Defined.

(** X15: [v[5] = 7] on [{1, 2, 3}] in the non-throwing build. *)
Lemma operator_index_noexcept_fallback_witness :
  operator_index NoExcept 5 (mk_fixed_vector 4 3 [1; 2; 3; 0]) =
    (Ok 0, mk_fixed_vector 4 3 [1; 2; 3; 0]) /\
  assign_at NoExcept 5 7 (mk_fixed_vector 4 3 [1; 2; 3; 0]) =
    (Ok tt, mk_fixed_vector 4 3 [7; 2; 3; 0]).
Proof.
  destruct (operator_index_noexcept_fallback 5 7 (mk_fixed_vector 4 3 [1; 2; 3; 0]))
    as [Hidx Hstore]; [solve_instance|solve_instance|solve_instance|].
  split; [exact Hidx|]. apply Hstore. cbn. lia.
Defined.

(** X17: [pop_front] on an empty vector, checked mode. *)
Lemma checked_throw_leaves_object_witness :
  fixed_vector_default 2 0 = fixed_vector_default 2 0 /\
  ((is_push (@OpPopFront Z) = true /\ 0 = 2 /\ EmptyContainer = CapacityExceeded) \/
   (is_pop (@OpPopFront Z) = true /\ 0 = 0 /\ EmptyContainer = EmptyContainer) \/
   (exists pos, @OpPopFront Z = OpIndex pos /\
      (EmptyContainer = IndexOutOfRange \/ EmptyContainer = InvariantViolation))).
Proof.
  apply (checked_throw_leaves_object OpPopFront (fixed_vector_default 2 0)
           EmptyContainer (fixed_vector_default 2 0)).
  vm_compute. reflexivity.
Defined.

(** X18: [push_front] with one free slot. *)
Lemma fault_exactly_in_two_cases_witness :
  fst (run_operation Checked (OpPushFront 7) (mk_fixed_vector 4 3 [1; 2; 3; 0])) = Fault 4 <->
  ((exists val, OpPushFront 7 = OpPushFront val) /\ 3 + 1 = 4 /\ 4 = 4) \/
  (OpPushFront 7 = OpReverse /\ 3 = 0 /\ 4 = SIZE_MAX).
Proof.
  apply (fault_exactly_in_two_cases Checked (OpPushFront 7)
           (mk_fixed_vector 4 3 [1; 2; 3; 0]) 4);
    [solve_instance | intros v Hv; discriminate Hv | intros pos Hp; discriminate Hp].
Defined.

(** X19: [push_back(1); push_front(0); pop_back()] on an empty vector of
    capacity 4. *)
Lemma deque_run_refines_witness :
  wf (mk_fixed_vector 4 1 [0; 1; 0; 0]) /\
  logical (mk_fixed_vector 4 1 [0; 1; 0; 0]) = [0] /\
  size (mk_fixed_vector 4 1 [0; 1; 0; 0]) = 1.
Proof.
  apply (deque_run_refines [OpPushBack 1; OpPushFront 0; OpPopBack]
           (fixed_vector_default 4 0) (mk_fixed_vector 4 1 [0; 1; 0; 0]));
    solve_instance.
Defined.

(** X20 at a full vector of capacity 2. *)
Lemma push_full_noexcept_discards_witness :
  push_back NoExcept 7 (mk_fixed_vector 2 2 [1; 2]) = (Ok tt, mk_fixed_vector 2 2 [1; 2]) /\
  push_front NoExcept 7 (mk_fixed_vector 2 2 [1; 2]) = (Ok tt, mk_fixed_vector 2 2 [1; 2]).
Proof.
  apply (push_full_noexcept_discards 7 (mk_fixed_vector 2 2 [1; 2])). reflexivity.
Defined.

(** X21 at [{1, 2, 3}], capacity 4. *)
Lemma iteration_visits_logical_witness :
  exists last,
    end_ (mk_fixed_vector 4 3 [1; 2; 3; 9]) = Ok last /\
    iterator_distance last (begin (mk_fixed_vector 4 3 [1; 2; 3; 9])) = 3 /\
    traverse 4 (begin (mk_fixed_vector 4 3 [1; 2; 3; 9])) last
      (mk_fixed_vector 4 3 [1; 2; 3; 9]) = Some (Ok [1; 2; 3]).
Proof.
  apply (iteration_visits_logical (mk_fixed_vector 4 3 [1; 2; 3; 9]) 4); solve_instance.
Defined.

(** X22 at [{1, 2, 3, 4}]. *)
Lemma reverse_twice_witness :
  bind reverse (fun _ => reverse) (mk_fixed_vector 4 4 [1; 2; 3; 4]) =
    (Ok tt, mk_fixed_vector 4 4 [1; 2; 3; 4]).
Proof.
  apply (reverse_twice (mk_fixed_vector 4 4 [1; 2; 3; 4])); solve_instance.
Defined.

(** X23: a store through [begin()] moved once, on [{1, 2, 3}]. *)
Lemma iterator_store_replaces_witness :
  exists y s',
    iterator_eq (mk_iterator 1) (mk_iterator 3) = false /\
    logical (mk_fixed_vector 4 3 [1; 2; 3; 9]) !! 1%nat = Some y /\
    iterator_deref (mk_iterator 1) (mk_fixed_vector 4 3 [1; 2; 3; 9]) = Ok y /\
    iterator_store (mk_iterator 1) 7 (mk_fixed_vector 4 3 [1; 2; 3; 9]) = (Ok tt, s') /\
    _current_size s' = 3 /\
    logical s' = [1; 7; 3] /\
    iterator_deref (mk_iterator 1) s' = Ok 7.
Proof.
  apply (iterator_store_replaces (mk_fixed_vector 4 3 [1; 2; 3; 9]) 1 7); solve_instance.
Defined.
